(** * Internet Yellow Pages: the [iyp] identity-resolution layer

    A shallow embedding of [iyp/__init__.py]: the property normalizer
    ([format_properties]), the memoized node resolvers ([get_node],
    [get_node_extid]), the relationship batcher ([add_links]) and the
    transaction coordinator ([commit], [rollback]).

    Python values are modelled by the scalars a property map holds,
    dictionaries by insertion-ordered association lists, exceptions by an
    error result, and the [IYP] instance by a record threaded through every
    call.  The graph store is an external collaborator: the resolver is
    written against an arbitrary statement executor, and a reference
    executor covering the statement shapes the source issues is given in
    module [Neo4j]. *)

From Stdlib Require Import ZArith List String Ascii Lia Permutation.
From stdpp Require Import gmap strings list fin_maps pretty.
Import ListNotations.
Open Scope string_scope.
Open Scope Z_scope.

(** ** Python values, exceptions and results *)

(** The scalars of a property map: integers, strings and timestamps (kept
    as their textual rendering).  Floats are left out. *)
Inductive value : Type :=
| VInt (z : Z)
| VStr (s : string)
| VTime (iso : string).

#[global] Instance value_eq_dec : EqDecision value.
Proof. solve_decision. Defined.

(** The exceptions the modelled code paths can raise. *)
Inductive exn : Type :=
| TypeError
| ValueError
| AttributeError
| KeyError (k : string)
| AssertionError
| ConstraintError
| CypherSyntaxError
| TransactionError.

#[global] Instance exn_eq_dec : EqDecision exn.
Proof. solve_decision. Defined.

Inductive res (A : Type) : Type :=
| Ok (a : A)
| Raise (e : exn).
Arguments Ok {A} a.
Arguments Raise {A} e.

Definition res_bind {A B : Type} (r : res A) (f : A -> res B) : res B :=
  match r with
  | Ok a => f a
  | Raise e => Raise e
  end.

Declare Scope res_scope.
Delimit Scope res_scope with res.
Notation "x <- r ;; k" := (res_bind r (fun x => k))
  (at level 100, r at next level, right associativity) : res_scope.

Definition is_ok {A : Type} (r : res A) : bool :=
  match r with Ok _ => true | Raise _ => false end.

(** ** Dictionaries

    A Python [dict] keeps its keys in insertion order and holds every key
    once.  [dict_set] is [d[k] = v]: an existing key keeps its position. *)

Definition dict : Type := list (string * value).

Fixpoint dict_get (k : string) (d : dict) : option value :=
  match d with
  | [] => None
  | (k', v) :: d' => if String.eqb k k' then Some v else dict_get k d'
  end.

Definition dict_in (k : string) (d : dict) : bool :=
  match dict_get k d with Some _ => true | None => false end.

Fixpoint dict_set (k : string) (v : value) (d : dict) : dict :=
  match d with
  | [] => [(k, v)]
  | (k', v') :: d' =>
      if String.eqb k k' then (k', v) :: d' else (k', v') :: dict_set k v d'
  end.

Definition dict_keys (d : dict) : list string := map fst d.

(** [d[k]] on a key that may be absent. *)
Definition dict_item (k : string) (d : dict) : res value :=
  match dict_get k d with
  | Some v => Ok v
  | None => Raise (KeyError k)
  end.

(** ** Strings: [str.lower], [str.upper] and [int(str)] on ASCII text *)

Definition lower_ascii (c : ascii) : ascii :=
  let n := N_of_ascii c in
  if ((65 <=? n) && (n <=? 90))%N then ascii_of_N (n + 32) else c.

Definition upper_ascii (c : ascii) : ascii :=
  let n := N_of_ascii c in
  if ((97 <=? n) && (n <=? 122))%N then ascii_of_N (n - 32) else c.

Fixpoint str_map (f : ascii -> ascii) (s : string) : string :=
  match s with
  | EmptyString => EmptyString
  | String c r => String (f c) (str_map f r)
  end.

Definition lower (s : string) : string := str_map lower_ascii s.
Definition upper (s : string) : string := str_map upper_ascii s.

(** The ASCII characters [int] strips: space, tab to carriage return, and
    the four separator controls. *)
Definition is_space (c : ascii) : bool :=
  let n := N_of_ascii c in
  ((n =? 32) || ((9 <=? n) && (n <=? 13)) || ((28 <=? n) && (n <=? 31)))%N.

Definition is_digit (c : ascii) : bool :=
  let n := N_of_ascii c in ((48 <=? n) && (n <=? 57))%N.

Definition digit_val (c : ascii) : Z := Z.of_N (N_of_ascii c) - 48.

Fixpoint lstrip (s : string) : string :=
  match s with
  | EmptyString => EmptyString
  | String c r => if is_space c then lstrip r else s
  end.

Fixpoint rstrip (s : string) : string :=
  match s with
  | EmptyString => EmptyString
  | String c r =>
      match rstrip r with
      | EmptyString => if is_space c then EmptyString else String c EmptyString
      | r' => String c r'
      end
  end.

(** Decimal digits with single underscores between digits, as [int]
    accepts them; [prev] tells whether the previous character was a
    digit. *)
Fixpoint digits (s : string) (acc : Z) (prev : bool) : option Z :=
  match s with
  | EmptyString => if prev then Some acc else None
  | String c r =>
      if is_digit c then digits r (10 * acc + digit_val c) true
      else if Ascii.eqb c "_"%char then
        if prev then digits r acc false else None
      else None
  end.

Definition int_of_string (s : string) : option Z :=
  match rstrip (lstrip s) with
  | String "-"%char r => option_map Z.opp (digits r 0 false)
  | String "+"%char r => digits r 0 false
  | r => digits r 0 false
  end.

(** [int(v)]. *)
Definition py_int (v : value) : res value :=
  match v with
  | VInt z => Ok (VInt z)
  | VStr s =>
      match int_of_string s with
      | Some z => Ok (VInt z)
      | None => Raise ValueError
      end
  | VTime _ => Raise TypeError
  end.

(** [v.lower()] and [v.upper()]: only strings have the method. *)
Definition py_lower (v : value) : res value :=
  match v with
  | VStr s => Ok (VStr (lower s))
  | _ => Raise AttributeError
  end.

Definition py_upper (v : value) : res value :=
  match v with
  | VStr s => Ok (VStr (upper s))
  | _ => Raise AttributeError
  end.

(** ** The property normalizer *)

(** [if k in prop: prop[k] = f(prop[k])]. *)
Definition reformat (k : string) (f : value -> res value) (prop : dict)
  : res dict :=
  match dict_get k prop with
  | Some v => (v' <- f v ;; Ok (dict_set k v' prop))%res
  | None => Ok prop
  end.

(** [format_properties]: the function works on [dict(prop)], a copy, which
    the value passing of the embedding gives for free (the aliasing is
    spelled out in module [Heap] below). *)
Definition format_properties (prop : dict) : res dict :=
  (prop <- reformat "asn" py_int prop ;;
   prop <- reformat "ip" py_lower prop ;;
   prop <- reformat "prefix" py_lower prop ;;
   reformat "country_code" py_upper prop)%res.

(** ** The constraint and index registries *)

Inductive constraint : Type := UNIQUE | NOT_NULL.

#[global] Instance constraint_eq_dec : EqDecision constraint.
Proof. solve_decision. Defined.

(** Usual constraints on nodes' properties, per label, in the order the
    source declares them. *)
Definition NODE_CONSTRAINTS : list (string * list (string * list constraint)) :=
  [ ("AS", [("asn", [UNIQUE; NOT_NULL])]);
    ("PREFIX", [("prefix", [UNIQUE; NOT_NULL]); ("af", [NOT_NULL])]);
    ("IP", [("ip", [UNIQUE; NOT_NULL]); ("af", [NOT_NULL])]);
    ("DOMAIN_NAME", [("name", [UNIQUE; NOT_NULL])]);
    ("COUNTRY", [("country_code", [UNIQUE; NOT_NULL])]);
    ("ORGANIZATION", [("name", [NOT_NULL])]) ].

Definition NODE_INDEXES : list (string * list string) :=
  [ ("PEERINGDB_ORG_ID", ["id"]) ].

(** The labels with constraints. *)
Definition NODE_CONSTRAINTS_LABELS : list string := map fst NODE_CONSTRAINTS.

(** [NODE_CONSTRAINTS[label].keys()]. *)
Definition constraint_keys (label : string) : list string :=
  match find (fun e => String.eqb label (fst e)) NODE_CONSTRAINTS with
  | Some (_, props) => map fst props
  | None => []
  end.

(** ** Statements sent to the store

    The source builds each statement as text ([dict2str] writes the
    property maps into it); the embedding keeps the statement's shape and
    its interpolated values, one constructor per template of the source.
    This is the statement the store reads as long as every value's
    literal reads back as that value. *)

Definition link : Type := string * Z * dict.

Inductive stmt : Type :=
| MergeSet (label : string) (constraint_prop prop : dict) (labels : list string)
    (* MERGE (a:label {constraint_prop})
       ON MATCH SET a.k = v ..., a:l ...  ON CREATE SET a.k = v ..., a:l ...
       RETURN ID(a) *)
| Merge (type_str : string) (prop : dict)
    (* MERGE (a:type_str {prop}) RETURN ID(a) *)
| Match (type_str : string) (prop : dict)
    (* MATCH (a:type_str {prop}) RETURN ID(a) *)
| MatchExtId (id_type : string) (id : value)
    (* MATCH (a)-[:EXTERNAL_ID]->(:id_type {id:id}) RETURN ID(a) *)
| Links (src_node : Z) (links : list link).
    (* MATCH (x), (x0), ... WHERE ID(x) = src_node AND ID(x0) = dst0 ...
       MERGE (x)-[:type0 {prop0}]->(x0) ... *)

(** Schema directives of [_db_init], run on the session outside the
    transaction. *)
Inductive schema_stmt : Type :=
| CreateConstraint (label property : string) (c : constraint)
| CreateIndex (label index : string).

Definition _db_init (neo4j_enterprise : bool) : list schema_stmt :=
  flat_map (fun '(label, prop_constraints) =>
    flat_map (fun '(property, constraints) =>
      flat_map (fun c =>
        if negb neo4j_enterprise && negb (bool_decide (c = UNIQUE)) then []
        else [CreateConstraint label property c]) constraints)
      prop_constraints) NODE_CONSTRAINTS
  ++ flat_map (fun '(label, indexes) =>
       map (fun index => CreateIndex label index) indexes) NODE_INDEXES.

(** ** [functools.lru_cache]

    The cache is kept most recently used first.  A hit moves the entry to
    the front; a miss stores the result at the front and, when the cache
    is full, drops the least recently used entry. *)

Section LRU.
Context {K V : Type} `{EqDecision K}.

Definition lru : Type := list (K * V).

Fixpoint lru_find (k : K) (c : lru) : option V :=
  match c with
  | [] => None
  | (k', v) :: c' => if decide (k = k') then Some v else lru_find k c'
  end.

Fixpoint lru_remove (k : K) (c : lru) : lru :=
  match c with
  | [] => []
  | (k', v) :: c' =>
      if decide (k = k') then lru_remove k c' else (k', v) :: lru_remove k c'
  end.

Definition lru_touch (k : K) (v : V) (c : lru) : lru :=
  (k, v) :: lru_remove k c.

Definition lru_add (maxsize : Z) (k : K) (v : V) (c : lru) : lru :=
  match lru_find k c with
  | Some _ => c
  | None =>
      (k, v) :: (if maxsize <=? Z.of_nat (length c) then removelast c else c)
  end.
End LRU.
Arguments lru : clear implicits.

Definition maxsize : Z := 100000.

(** ** The [IYP] instance *)

(** The [type] argument of [get_node]: one label or a list of labels. *)
Inductive label_arg : Type :=
| LStr (s : string)
| LList (l : list string).

#[global] Instance label_arg_eq_dec : EqDecision label_arg.
Proof. solve_decision. Defined.

(** [frozendict(prop)]: equal whenever the keys and their values are. *)
Definition frozendict (prop : dict) : gmap string value := list_to_map prop.

(** Memoization keys: the arguments after [freezeargs]. *)
Definition node_key : Type := label_arg * gmap string value * bool.
Definition extid_key : Type := string * value.

#[global] Instance node_key_eq_dec : EqDecision node_key.
Proof. unfold node_key. apply _. Defined.

#[global] Instance extid_key_eq_dec : EqDecision extid_key.
Proof. unfold extid_key. apply _. Defined.

(** The key of a call of [get_node] written with its three arguments in
    position.  [lru_cache] keys a call as it is written: with [create]
    left to its default or passed by keyword the same arguments are
    another key, see [call_key]. *)
Definition key_of (type : label_arg) (prop : dict) (create : bool) : node_key :=
  (type, frozendict prop, create).

Definition extid_key_of (id_type : string) (id : value) : extid_key :=
  (id_type, id).

(** What [sys.stderr.write] received. *)
Inductive warning : Type :=
| CannotMerge (prop : dict).

(** The instance: the store as of the last commit, the store as the open
    transaction sees it, the two memoization caches, and a trace of what
    went to the store and to [stderr]. *)
Record iyp {G : Type} : Type := mkIYP {
  committed : G;
  tx : G;
  node_cache : lru node_key (option Z);
  extid_cache : lru extid_key (option Z);
  queries : list stmt;
  stderr : list warning
}.
Arguments iyp : clear implicits.
Arguments mkIYP {G}.

Definition set_node_cache {G} (c : lru node_key (option Z)) (s : iyp G) : iyp G :=
  mkIYP (committed s) (tx s) c (extid_cache s) (queries s) (stderr s).

Definition set_extid_cache {G} (c : lru extid_key (option Z)) (s : iyp G) : iyp G :=
  mkIYP (committed s) (tx s) (node_cache s) c (queries s) (stderr s).

(** ** Calls on the instance: state and exceptions

    A method takes the instance and gives back a result or an exception
    together with the instance it leaves behind. *)

Definition M (G A : Type) : Type := iyp G -> res A * iyp G.

Definition ret {G A : Type} (a : A) : M G A := fun s => (Ok a, s).

Definition bind {G A B : Type} (m : M G A) (f : A -> M G B) : M G B :=
  fun s =>
    match m s with
    | (Ok a, s') => f a s'
    | (Raise e, s') => (Raise e, s')
    end.

Definition lift {G A : Type} (r : res A) : M G A := fun s => (r, s).

Declare Scope iyp_scope.
Delimit Scope iyp_scope with iyp.
Notation "x <- m ;; k" := (bind m (fun x => k))
  (at level 100, m at next level, right associativity) : iyp_scope.

(** [try: body except ConstraintError: handler]. *)
Definition try_except_ConstraintError {G A : Type} (body handler : M G A)
  : M G A :=
  fun s =>
    match body s with
    | (Raise ConstraintError, s') => handler s'
    | r => r
    end.

Definition stderr_write {G : Type} (w : warning) : M G unit :=
  fun s =>
    (Ok tt, mkIYP (committed s) (tx s) (node_cache s) (extid_cache s)
                  (queries s) (stderr s ++ [w])%list).

(** [.single()]: the first record, or [None] when there is none; the
    record's only field is [ID(a)]. *)
Definition single (rows : list Z) : option Z := head rows.

(** [functools.lru_cache(maxsize)] around a method, with the key already
    computed from the arguments: a hit answers from the cache, a miss runs
    the method and stores what it returns; an exception stores nothing. *)
Definition lru_cached {G K : Type} `{EqDecision K}
    (cache : iyp G -> lru K (option Z))
    (set_cache : lru K (option Z) -> iyp G -> iyp G)
    (key : K) (f : M G (option Z)) : M G (option Z) :=
  fun s =>
    match lru_find key (cache s) with
    | Some v => (Ok v, set_cache (lru_touch key v (cache s)) s)
    | None =>
        match f s with
        | (Ok v, s') => (Ok v, set_cache (lru_add maxsize key v (cache s')) s')
        | (Raise e, s') => (Raise e, s')
        end
    end.

(** [hash] of the [type] argument: a list is unhashable. *)
Definition hashable (type : label_arg) : bool :=
  match type with
  | LStr _ => true
  | LList _ => false
  end.

Section Resolver.
Context {G : Type}.

(** The query executor: what a statement returns (the [ID(a)] column of
    its rows) or raises in a store state, and the store state after it. *)
Variable run : stmt -> G -> res (list Z) * G.

(** [self.tx.run(statement)]. *)
Definition tx_run (q : stmt) : M G (list Z) :=
  fun s =>
    let '(r, g) := run q (tx s) in
    (r, mkIYP (committed s) g (node_cache s) (extid_cache s)
              (queries s ++ [q])%list (stderr s)).

(** [dict([(c, prop[c]) for c in keys])]. *)
Fixpoint constraint_props (keys : list string) (prop : dict) : res dict :=
  match keys with
  | [] => Ok []
  | c :: keys' =>
      (v <- dict_item c prop ;;
       rest <- constraint_props keys' prop ;;
       Ok ((c, v) :: rest))%res
  end.

(** The body of [get_node], below its two decorators.  [has_constraints]
    is the set [NODE_CONSTRAINTS_LABELS.intersection(type)] and [pop]
    takes an element of it; the set is listed in registry order and its
    first element taken, which is the only choice when [type] is a single
    label. *)
Definition get_node_body (type : label_arg) (prop : dict) (create : bool)
  : M G (option Z) :=
  (prop <- lift (format_properties prop) ;;
   let type_str :=
     match type with LList l => String.concat ":" l | LStr s => s end in
   let type := match type with LList l => l | LStr s => [s] end in
   result <-
     (if create then
        let has_constraints :=
          List.filter (fun l => existsb (String.eqb l) type)
                 NODE_CONSTRAINTS_LABELS in
        match has_constraints with
        | label :: _ =>
            constraint_prop <-
              lift (constraint_props (constraint_keys label) prop) ;;
            let labels := type in
            try_except_ConstraintError
              (rows <- tx_run (MergeSet label constraint_prop prop labels) ;;
               ret (single rows))
              (_ <- stderr_write (CannotMerge prop) ;;
               rows <- tx_run (Match label constraint_prop) ;;
               ret (single rows))
        | [] =>
            rows <- tx_run (Merge type_str prop) ;;
            ret (single rows)
        end
      else
        rows <- tx_run (Match type_str prop) ;;
        ret (single rows)) ;;
   ret result)%iyp.

(** [get_node] as callers see it, called with its three arguments in
    position: [freezeargs] freezes the dictionary argument and leaves the
    others as they are, then [lru_cache] hashes the arguments to look the
    call up. *)
Definition get_node (type : label_arg) (prop : dict) (create : bool)
  : M G (option Z) :=
  fun s =>
    if hashable type then
      lru_cached node_cache set_node_cache (key_of type prop create)
        (get_node_body type prop create) s
    else (Raise TypeError, s).

(** [get_node_extid]. *)
Definition get_node_extid_body (id_type : string) (id : value)
  : M G (option Z) :=
  (rows <- tx_run (MatchExtId id_type id) ;;
   ret (single rows))%iyp.

Definition get_node_extid (id_type : string) (id : value) : M G (option Z) :=
  lru_cached extid_cache set_extid_cache (extid_key_of id_type id)
    (get_node_extid_body id_type id).

(** The loop of [add_links]: the three assertions, then the normalized
    properties appended to the clauses built so far. *)
Fixpoint add_links_loop (links merges : list link) : res (list link) :=
  match links with
  | [] => Ok merges
  | (type, dst_node, prop) :: links' =>
      if negb (dict_in "reference_org" prop) then Raise AssertionError
      else if negb (dict_in "reference_url" prop) then Raise AssertionError
      else if negb (dict_in "reference_time" prop) then Raise AssertionError
      else
        (prop <- format_properties prop ;;
         add_links_loop links' (merges ++ [(type, dst_node, prop)])%list)%res
  end.

Definition add_links (src_node : Z) (links : list link) : M G unit :=
  (merges <- lift (add_links_loop links []) ;;
   _ <- tx_run (Links src_node merges) ;;
   ret tt)%iyp.

(** [commit] and [rollback]: end the transaction and begin a new one. *)
Definition commit : M G unit :=
  fun s =>
    (Ok tt, mkIYP (tx s) (tx s) (node_cache s) (extid_cache s)
                  (queries s) (stderr s)).

Definition rollback : M G unit :=
  fun s =>
    (Ok tt, mkIYP (committed s) (committed s) (node_cache s) (extid_cache s)
                  (queries s) (stderr s)).

End Resolver.

(** ** A reference query executor

    A property graph with the uniqueness constraints that [_db_init]
    declares on a community-edition store, and the meaning of each
    statement shape on it.  A statement that would break a uniqueness
    constraint raises [ConstraintError] and leaves the graph as it was;
    the transaction stays usable.

    The store reads the dictionaries of a statement from the text
    [dict2str] writes; the executor takes them as the values they hold.
    The two are the same for a dictionary whose keys are identifiers and
    whose values are 64-bit integers or strings without a backslash
    ([readable_dict], [literal] and [read_literal] below); a point in
    time is written as a quoted text and a string with a backslash as
    another literal, and what the executor does with such a dictionary
    says nothing about the store. *)

Module Neo4j.

Record node : Type := mkNode {
  node_id : Z;
  node_labels : list string;
  node_props : dict
}.

Record rel : Type := mkRel {
  rel_src : Z;
  rel_type : string;
  rel_props : dict;
  rel_dst : Z
}.

Record graph : Type := mkGraph {
  nodes : list node;
  rels : list rel;
  next_id : Z
}.

Definition empty : graph := mkGraph [] [] 0.

(** The labels of a pattern [a:L1:L2]. *)
Fixpoint split_labels (s : string) (cur : string) : list string :=
  match s with
  | EmptyString => [cur]
  | String c r =>
      if Ascii.eqb c ":"%char then cur :: split_labels r EmptyString
      else split_labels r (cur +:+ String c EmptyString)
  end.

Definition labels_of (type_str : string) : list string :=
  split_labels type_str EmptyString.

Definition has_label (l : string) (n : node) : bool :=
  existsb (String.eqb l) (node_labels n).

Definition has_props (p : dict) (n : node) : bool :=
  forallb (fun '(k, v) => bool_decide (dict_get k (node_props n) = Some v)) p.

(** A node fits the pattern [(a:labels {p})]. *)
Definition fits (labels : list string) (p : dict) (n : node) : bool :=
  forallb (fun l => has_label l n) labels && has_props p n.

(** [SET a.k = v, ...]: the named properties are written, the others
    stay. *)
Definition set_props (p : dict) (old : dict) : dict :=
  fold_left (fun d '(k, v) => dict_set k v d) p old.

(** [SET a:l, ...]. *)
Definition add_labels (labels old : list string) : list string :=
  fold_left (fun acc l => if existsb (String.eqb l) acc then acc
                          else (acc ++ [l])%list) labels old.

(** [ON MATCH SET] / [ON CREATE SET] applied to a node. *)
Definition on_set (prop : dict) (labels : list string) (n : node) : node :=
  mkNode (node_id n) (add_labels labels (node_labels n))
         (set_props prop (node_props n)).

(** The uniqueness constraints in force: those of [_db_init] without the
    enterprise edition. *)
Definition unique_constraints : list (string * string) :=
  flat_map (fun d =>
    match d with
    | CreateConstraint label property UNIQUE => [(label, property)]
    | _ => []
    end) (_db_init false).

(** The values of [property] over the nodes labelled [label]. *)
Definition constrained_values (label property : string) (ns : list node)
  : list value :=
  flat_map (fun n =>
    if has_label label n then
      match dict_get property (node_props n) with
      | Some v => [v]
      | None => []
      end
    else []) ns.

Definition unique_ok (ns : list node) : bool :=
  forallb (fun '(label, property) =>
             bool_decide (NoDup (constrained_values label property ns)))
          unique_constraints.

(** Finish a writing statement: keep the new nodes if every uniqueness
    constraint holds on them. *)
Definition checked (rows : list Z) (g : graph) (ns : list node) (next : Z)
  : res (list Z) * graph :=
  if unique_ok ns then (Ok rows, mkGraph ns (rels g) next)
  else (Raise ConstraintError, g).

Definition node_exists (i : Z) (g : graph) : bool :=
  existsb (fun n => bool_decide (node_id n = i)) (nodes g).

(** [MERGE (x)-[:type {prop}]->(xi)] between two matched nodes. *)
Definition merge_rel (src : Z) (rs : list rel) (l : link) : list rel :=
  let '(type, dst, prop) := l in
  if existsb (fun r =>
       bool_decide (rel_src r = src) && String.eqb (rel_type r) type
       && bool_decide (rel_dst r = dst)
       && forallb (fun '(k, v) =>
            bool_decide (dict_get k (rel_props r) = Some v)) prop) rs
  then rs
  else (rs ++ [mkRel src type (set_props prop []) dst])%list.

Definition exec (q : stmt) (g : graph) : res (list Z) * graph :=
  match q with
  | Match type_str prop =>
      (Ok (map node_id (List.filter (fits (labels_of type_str) prop) (nodes g))), g)
  | Merge type_str prop =>
      match List.filter (fits (labels_of type_str) prop) (nodes g) with
      | [] =>
          let n := mkNode (next_id g) (add_labels (labels_of type_str) [])
                          (set_props prop []) in
          checked [node_id n] g (nodes g ++ [n])%list (next_id g + 1)
      | found => (Ok (map node_id found), g)
      end
  | MergeSet label constraint_prop prop labels =>
      match List.filter (fits [label] constraint_prop) (nodes g) with
      | [] =>
          let n := on_set prop labels
                     (mkNode (next_id g) [label]
                             (set_props constraint_prop [])) in
          checked [node_id n] g (nodes g ++ [n])%list (next_id g + 1)
      | found =>
          checked (map node_id found) g
            (map (fun n => if fits [label] constraint_prop n
                           then on_set prop labels n else n) (nodes g))
            (next_id g)
      end
  | MatchExtId id_type (VInt id) =>
      (Ok (flat_map (fun r =>
             if String.eqb (rel_type r) "EXTERNAL_ID"
                && existsb (fun b => bool_decide (node_id b = rel_dst r)
                                     && fits (labels_of id_type)
                                             [("id", VInt id)] b)
                           (nodes g)
             then [rel_src r] else []) (rels g)), g)
  | MatchExtId id_type _ =>
      (* the identifier is written into the text bare: only a number
         reads back as a value *)
      (Raise CypherSyntaxError, g)
  | Links src_node [] =>
      (* the text ends with its WHERE clause: nothing to execute *)
      (Raise CypherSyntaxError, g)
  | Links src_node links =>
      if node_exists src_node g
         && forallb (fun '(_, dst, _) => node_exists dst g) links
      then (Ok [], mkGraph (nodes g) (fold_left (merge_rel src_node) links (rels g))
                           (next_id g))
      else (Ok [], g)
  end.

(** A fresh instance on a store: nothing cached, nothing sent. *)
Definition connect (g : graph) : iyp graph := mkIYP g g [] [] [] [].

End Neo4j.

(** ** Dictionaries as shared objects

    A caller's dictionary is an object on the heap, passed by reference.
    [Heap.format_properties] is the normalizer on that level:
    [prop = dict(prop)] allocates a copy and every assignment that follows
    writes to the copy. *)

Module Heap.

Definition loc : Type := positive.

(** [dict(prop)]: a new object with the contents of the one at [l]. *)
Definition dict_copy (l : loc) (h : gmap loc dict) : loc * gmap loc dict :=
  let l' := fresh (dom h) in
  (l', <[l' := default [] (h !! l)]> h).

(** [if k in prop: prop[k] = f(prop[k])] on the object at [l]. *)
Definition reformat (k : string) (f : value -> res value) (l : loc)
    (h : gmap loc dict) : res unit * gmap loc dict :=
  let prop := default [] (h !! l) in
  match dict_get k prop with
  | Some v =>
      match f v with
      | Ok v' => (Ok tt, <[l := dict_set k v' prop]> h)
      | Raise e => (Raise e, h)
      end
  | None => (Ok tt, h)
  end.

Definition seq (m1 m2 : gmap loc dict -> res unit * gmap loc dict)
  : gmap loc dict -> res unit * gmap loc dict :=
  fun h =>
    match m1 h with
    | (Ok _, h') => m2 h'
    | (Raise e, h') => (Raise e, h')
    end.

(** The normalizer: returns the location of the normalized copy. *)
Definition format_properties (l : loc) (h : gmap loc dict)
  : res loc * gmap loc dict :=
  let '(prop, h) := dict_copy l h in
  match seq (reformat "asn" py_int prop)
       (seq (reformat "ip" py_lower prop)
       (seq (reformat "prefix" py_lower prop)
            (reformat "country_code" py_upper prop))) h with
  | (Ok _, h') => (Ok prop, h')
  | (Raise e, h') => (Raise e, h')
  end.

End Heap.

(** ** Predicates used in the statements *)

(** A coercion is stable when its results are left alone by it. *)
Definition stable (f : value -> res value) : Prop :=
  forall v v', f v = Ok v' -> f v' = Ok v'.

(** The value under [k], if any, is already in the form [f] gives. *)
Definition settled (k : string) (f : value -> res value) (d : dict) : Prop :=
  match dict_get k d with
  | Some v => f v = Ok v
  | None => True
  end.

(** A call leaves both caches and the committed store as they were. *)
Definition cache_frame {G : Type} (s s' : iyp G) : Prop :=
  node_cache s' = node_cache s /\ extid_cache s' = extid_cache s /\
  committed s' = committed s.

Definition framed {G A : Type} (m : M G A) : Prop :=
  forall s, cache_frame s (m s).2.

(** Two instances that differ at most in their caches: nothing was sent
    to the store or to [stderr] in between. *)
Definition silent {G : Type} (s s' : iyp G) : Prop :=
  tx s' = tx s /\ committed s' = committed s /\
  queries s' = queries s /\ stderr s' = stderr s.

(** A link entry carries the three provenance keys. *)
Definition has_reference (l : link) : bool :=
  dict_in "reference_org" l.2 && dict_in "reference_url" l.2
  && dict_in "reference_time" l.2.

(** [m] is the merge clause of link [l]: same type and destination, the
    properties normalized. *)
Definition clause_of (l m : link) : Prop :=
  m.1 = l.1 /\ format_properties l.2 = Ok m.2.

(** The uniqueness constraints hold on the store. *)
Definition graph_ok (g : Neo4j.graph) : Prop :=
  Neo4j.unique_ok (Neo4j.nodes g) = true.

(** ** [dict2str]: a dictionary as the text of a Cypher map *)

Definition dquote : ascii := ascii_of_N 34.

(** [c in s] for a character. *)
Fixpoint str_contains (c : ascii) (s : string) : bool :=
  match s with
  | EmptyString => false
  | String c' r => Ascii.eqb c c' || str_contains c r
  end.

(** [s.replace(c, by)] for a one-character pattern. *)
Fixpoint str_replace (c : ascii) (by_ : string) (s : string) : string :=
  match s with
  | EmptyString => EmptyString
  | String c' r =>
      if Ascii.eqb c c' then by_ +:+ str_replace c by_ r
      else String c' (str_replace c by_ r)
  end.

(** [str(v)], as an f-string writes a value. *)
Definition py_str (v : value) : string :=
  match v with
  | VInt z => pretty z
  | VStr s => s
  | VTime iso => iso
  end.

(** One turn of the loop of [dict2str]: the text appended to [data]. *)
Definition dict2str_item (eq pfx : string) (item : string * value) : string :=
  let '(key, v) := item in
  match v with
  | VStr s =>
      if str_contains dquote s then
        pfx +:+ key +:+ eq +:+ " '" +:+ str_replace "'"%char "\'" s +:+ "'"
      else
        pfx +:+ key +:+ eq +:+ " " +:+ String dquote (s +:+ String dquote "")
  | VTime iso =>
      pfx +:+ key +:+ eq +:+ " " +:+ String dquote (iso +:+ String dquote "")
  | VInt z => pfx +:+ key +:+ eq +:+ " " +:+ pretty z
  end.

(** [dict2str(d, eq, pfx)]; the source's defaults are [eq=':'] and
    [pfx='']. *)
Definition dict2str (d : dict) (eq pfx : string) : string :=
  "{" +:+ String.concat "," (map (dict2str_item eq pfx) d) +:+ "}".

(** [s[1:-1]]. *)
Fixpoint str_init (s : string) : string :=
  match s with
  | EmptyString => EmptyString
  | String c EmptyString => EmptyString
  | String c r => String c (str_init r)
  end.

Definition slice_1_m1 (s : string) : string :=
  match s with
  | EmptyString => EmptyString
  | String _ r => str_init r
  end.

(** ** [_db_init] over any registry

    The loops of [_db_init] with the two registries as arguments;
    [_db_init] is their run on [NODE_CONSTRAINTS] and [NODE_INDEXES]. *)
Definition db_init_with
    (constraints : list (string * list (string * list constraint)))
    (indexes : list (string * list string))
    (neo4j_enterprise : bool) : list schema_stmt :=
  (flat_map (fun '(label, prop_constraints) =>
    flat_map (fun '(property, constraints) =>
      flat_map (fun c =>
        if negb neo4j_enterprise && negb (bool_decide (c = UNIQUE)) then []
        else [CreateConstraint label property c]) constraints)
      prop_constraints) constraints
  ++ flat_map (fun '(label, indexes) =>
       map (fun index => CreateIndex label index) indexes) indexes)%list.

(** [constraint c] is registered for [property] of [label]. *)
Definition registered
    (constraints : list (string * list (string * list constraint)))
    (label property : string) (c : constraint) : Prop :=
  exists props cs,
    In (label, props) constraints /\ In (property, cs) props /\ In c cs.

(** ** [BaseCrawler]

    [self.reference] as [BaseCrawler.__init__] builds it; [today] is the
    text of the UTC date the clock gives, and the time of day is
    [time.min]. *)
Definition BaseCrawler_reference (organization url : value) (today : string)
  : dict :=
  [ ("reference_org", organization);
    ("reference_url", url);
    ("reference_time", VTime (today +:+ " 00:00:00+00:00")) ].

(** ** Sequences of calls

    What a caller does between two transaction boundaries: resolver and
    linker calls, in any number and order, whatever each returns or
    raises. *)
Inductive call : Type :=
| CallGetNode (type : label_arg) (prop : dict) (create : bool)
| CallGetNodeExtid (id_type : string) (id : value)
| CallAddLinks (src_node : Z) (links : list link).

Definition do_call {G : Type} (run : stmt -> G -> res (list Z) * G)
    (c : call) (s : iyp G) : iyp G :=
  match c with
  | CallGetNode type prop create => (get_node run type prop create s).2
  | CallGetNodeExtid id_type id => (get_node_extid run id_type id s).2
  | CallAddLinks src_node links => (add_links run src_node links s).2
  end.

Definition do_calls {G : Type} (run : stmt -> G -> res (list Z) * G)
    (cs : list call) (s : iyp G) : iyp G :=
  fold_left (fun s c => do_call run c s) cs s.

(** A rule accepts the value under its key, if there is one. *)
Definition rule_ok (f : value -> res value) (o : option value) : Prop :=
  match o with
  | Some v => is_ok (f v) = true
  | None => True
  end.

(** Both caches are within [maxsize]. *)
Definition bounded {G : Type} (s : iyp G) : Prop :=
  Z.of_nat (length (node_cache s)) <= maxsize /\
  Z.of_nat (length (extid_cache s)) <= maxsize.

(** A dictionary with every timestamp replaced by the string of its
    text. *)
Definition time_as_text (d : dict) : dict :=
  map (fun item =>
         match item.2 with
         | VTime iso => (item.1, VStr iso)
         | _ => item
         end) d.

(** No timestamp's text holds a double quote. *)
Definition plain_times (d : dict) : Prop :=
  forall k iso, In (k, VTime iso) d -> str_contains dquote iso = false.

(** A relationship for link [l] from [src] is among [rs]: the test of
    [Neo4j.merge_rel]. *)
Definition linked (src : Z) (rs : list Neo4j.rel) (l : link) : bool :=
  existsb (fun r =>
    bool_decide (Neo4j.rel_src r = src) && String.eqb (Neo4j.rel_type r) l.1.1
    && bool_decide (Neo4j.rel_dst r = l.1.2)
    && forallb (fun '(k, v) =>
         bool_decide (dict_get k (Neo4j.rel_props r) = Some v)) l.2) rs.

(** ** Values the statement text carries unchanged

    [dict2str] writes a key bare and a value as a literal.  The literal of
    a value, and how the store reads a literal: a quoted text with
    backslash escapes, or a decimal number. *)

(** The text [dict2str] writes for a value, after the key and [eq]. *)
Definition literal (v : value) : string :=
  match v with
  | VStr s =>
      if str_contains dquote s then
        "'" +:+ str_replace "'"%char "\'" s +:+ "'"
      else String dquote (s +:+ String dquote "")
  | VTime iso => String dquote (iso +:+ String dquote "")
  | VInt z => pretty z
  end.

(** The text after an opening [delim], up to the closing one, which has to
    end the literal; a backslash keeps the quote or backslash after it. *)
Fixpoint read_body (delim : ascii) (s : string) : option string :=
  match s with
  | EmptyString => None
  | String c r =>
      if Ascii.eqb c delim then
        match r with EmptyString => Some EmptyString | _ => None end
      else if Ascii.eqb c "\"%char then
        match r with
        | String e r' =>
            if Ascii.eqb e "'"%char || Ascii.eqb e dquote
               || Ascii.eqb e "\"%char
            then option_map (String e) (read_body delim r')
            else None
        | EmptyString => None
        end
      else option_map (String c) (read_body delim r)
  end.

(** The integers of the store are 64-bit; a literal whose magnitude
    reaches [2 ^ 63] is refused. *)
Definition int64 (z : Z) : bool := Z.abs z <? 2 ^ 63.

Definition read_literal (text : string) : option value :=
  match text with
  | EmptyString => None
  | String c r =>
      if Ascii.eqb c dquote then option_map VStr (read_body dquote r)
      else if Ascii.eqb c "'"%char then option_map VStr (read_body "'"%char r)
      else
        match int_of_string text with
        | Some z => if int64 z then Some (VInt z) else None
        | None => None
        end
  end.

(** 64-bit integers and strings without a backslash. *)
Definition readable (v : value) : bool :=
  match v with
  | VInt z => int64 z
  | VStr s => negb (str_contains "\"%char s)
  | VTime _ => false
  end.

(** A key that is an identifier: letters, digits and underscores, not
    starting with a digit. *)
Definition ident_start (c : ascii) : bool :=
  let n := N_of_ascii c in
  (((65 <=? n) && (n <=? 90)) || ((97 <=? n) && (n <=? 122)) || (n =? 95))%N.

Fixpoint ident_rest (s : string) : bool :=
  match s with
  | EmptyString => true
  | String c r => (ident_start c || is_digit c) && ident_rest r
  end.

Definition plain_key (k : string) : bool :=
  match k with
  | EmptyString => false
  | String c r => ident_start c && ident_rest r
  end.

(** A property map the statement text carries as it is: identifiers as
    keys, integers and backslash-free strings as values. *)
Definition readable_dict (d : dict) : bool :=
  forallb (fun item => plain_key item.1 && readable item.2) d.

(** ** A store that keeps a failed transaction failed

    The reference executor with one more piece of state, whether a
    statement of the transaction has raised: a failed transaction accepts
    no further statement, each one raises [TransactionError]. *)
Definition exec_failed_tx (q : stmt) (st : Neo4j.graph * bool)
  : res (list Z) * (Neo4j.graph * bool) :=
  if st.2 then (Raise TransactionError, st)
  else
    match Neo4j.exec q st.1 with
    | (Ok rows, g) => (Ok rows, (g, false))
    | (Raise e, g) => (Raise e, (g, true))
    end.

(** ** A call of [get_node] as it is written

    [freezeargs] and [lru_cache] see the call before its arguments are
    bound to parameters: the arguments passed in position (after [self])
    and those passed by keyword, in the order written. *)

Inductive arg : Type :=
| ALabel (t : label_arg)
| ADict (d : dict)
| ABool (b : bool).

(** An argument after [freezeargs]: a dictionary becomes a [frozendict],
    anything else stays. *)
Inductive frozen_arg : Type :=
| FLabel (t : label_arg)
| FDict (d : gmap string value)
| FBool (b : bool).

Definition freeze (a : arg) : frozen_arg :=
  match a with
  | ALabel t => FLabel t
  | ADict d => FDict (frozendict d)
  | ABool b => FBool b
  end.

Definition written_call : Type := list arg * list (string * arg).

(** The key [lru_cache] makes of a call: the positional arguments, then,
    behind a mark, the keyword items in the order written.  Nothing is
    bound to a parameter and no default is filled in. *)
Definition call_key (c : written_call)
  : list frozen_arg * list (string * frozen_arg) :=
  (map freeze c.1, map (fun kv => (kv.1, freeze kv.2)) c.2).

Fixpoint arg_get (k : string) (l : list (string * arg)) : option arg :=
  match l with
  | [] => None
  | (k', a) :: l' => if String.eqb k k' then Some a else arg_get k l'
  end.

(** Binding the call to [(self, type, prop, create=False)]. *)
Definition bind_args (c : written_call) : res (arg * arg * arg) :=
  let names := ["type"; "prop"; "create"] in
  let positional := combine names c.1 in
  if (3 <? length c.1)%nat then Raise TypeError
  else if existsb (fun kv =>
            negb (existsb (String.eqb kv.1) names)
            || match arg_get kv.1 positional with
               | Some _ => true
               | None => false
               end) c.2
  then Raise TypeError
  else
    let bound := (positional ++ c.2)%list in
    match arg_get "type" bound, arg_get "prop" bound with
    | Some t, Some p =>
        Ok (t, p, default (ABool false) (arg_get "create" bound))
    | _, _ => Raise TypeError
    end.

(** The call written with its three arguments in position. *)
Definition positional (type : label_arg) (prop : dict) (create : bool)
  : written_call :=
  ([ALabel type; ADict prop; ABool create], []).

(** * Properties *)

(** ** Dictionaries *)

Lemma dict_get_set_eq (k : string) (v : value) (d : dict) :
  dict_get k (dict_set k v d) = Some v.
Proof.
  induction d as [|[k' v'] d IH]; simpl.
  - now rewrite String.eqb_refl.
  - destruct (String.eqb k k') eqn:E; simpl; rewrite E; auto.
Qed.

Lemma dict_get_set_ne (k k' : string) (v : value) (d : dict) :
  k <> k' -> dict_get k' (dict_set k v d) = dict_get k' d.
Proof.
  intros Hne. induction d as [|[k0 v0] d IH]; simpl.
  - apply String.eqb_neq in Hne. rewrite String.eqb_sym in Hne. now rewrite Hne.
  - destruct (String.eqb k k0) eqn:E; simpl.
    + apply String.eqb_eq in E. subst k0.
      destruct (String.eqb k' k) eqn:E'; auto.
      apply String.eqb_eq in E'. congruence.
    + now rewrite IH.
Qed.

Lemma dict_set_id (k : string) (v : value) (d : dict) :
  dict_get k d = Some v -> dict_set k v d = d.
Proof.
  induction d as [|[k' v'] d IH]; simpl; [discriminate|].
  destruct (String.eqb k k') eqn:E.
  - intros [= ->]. reflexivity.
  - intros H. now rewrite IH.
Qed.

Lemma dict_keys_set (k : string) (v v0 : value) (d : dict) :
  dict_get k d = Some v0 -> dict_keys (dict_set k v d) = dict_keys d.
Proof.
  induction d as [|[k' v'] d IH]; simpl; [discriminate|].
  destruct (String.eqb k k') eqn:E; simpl; auto.
  intros H. f_equal. auto.
Qed.

(** ** The normalizer *)

Lemma lower_ascii_idem (c : ascii) : lower_ascii (lower_ascii c) = lower_ascii c.
Proof. destruct c as [[] [] [] [] [] [] [] []]; reflexivity. Qed.

Lemma upper_ascii_idem (c : ascii) : upper_ascii (upper_ascii c) = upper_ascii c.
Proof. destruct c as [[] [] [] [] [] [] [] []]; reflexivity. Qed.

Lemma str_map_idem (f : ascii -> ascii) (s : string) :
  (forall c, f (f c) = f c) -> str_map f (str_map f s) = str_map f s.
Proof. intros Hf. induction s; simpl; congruence. Qed.

Lemma py_int_stable : stable py_int.
Proof.
  intros [z|s|t] v'; simpl; try discriminate.
  - now intros [= <-].
  - destruct (int_of_string s); [intros [= <-]; reflexivity | discriminate].
Qed.

Lemma py_lower_stable : stable py_lower.
Proof.
  intros [z|s|t] v'; simpl; try discriminate.
  intros [= <-]. simpl. unfold lower.
  now rewrite (str_map_idem _ _ lower_ascii_idem).
Qed.

Lemma py_upper_stable : stable py_upper.
Proof.
  intros [z|s|t] v'; simpl; try discriminate.
  intros [= <-]. simpl. unfold upper.
  now rewrite (str_map_idem _ _ upper_ascii_idem).
Qed.

Lemma reformat_settled (k : string) (f : value -> res value) (d : dict) :
  settled k f d -> reformat k f d = Ok d.
Proof.
  unfold settled, reformat. destruct (dict_get k d) as [v|] eqn:E; auto.
  intros ->. simpl. now rewrite (dict_set_id _ _ _ E).
Qed.

Lemma reformat_settles (k : string) (f : value -> res value) (d d' : dict) :
  stable f -> reformat k f d = Ok d' -> settled k f d'.
Proof.
  intros Hf. unfold reformat, settled.
  destruct (dict_get k d) as [v|] eqn:E.
  - destruct (f v) as [v'|e] eqn:Ef; simpl; [|discriminate].
    intros [= <-]. rewrite dict_get_set_eq. eauto.
  - intros [= <-]. now rewrite E.
Qed.

Lemma reformat_other (k k' : string) (f : value -> res value) (d d' : dict) :
  k <> k' -> reformat k f d = Ok d' -> dict_get k' d' = dict_get k' d.
Proof.
  intros Hne. unfold reformat.
  destruct (dict_get k d) as [v|] eqn:E.
  - destruct (f v) as [v'|e]; simpl; [|discriminate].
    intros [= <-]. now apply dict_get_set_ne.
  - now intros [= <-].
Qed.

Lemma reformat_keeps_settled (k k' : string) (f f' : value -> res value)
    (d d' : dict) :
  k <> k' -> settled k' f' d -> reformat k f d = Ok d' -> settled k' f' d'.
Proof.
  intros Hne Hs Hr. unfold settled in *.
  now rewrite (reformat_other _ _ _ _ _ Hne Hr).
Qed.

Lemma reformat_keys (k : string) (f : value -> res value) (d d' : dict) :
  reformat k f d = Ok d' -> dict_keys d' = dict_keys d.
Proof.
  unfold reformat. destruct (dict_get k d) as [v|] eqn:E.
  - destruct (f v) as [v'|e]; simpl; [|discriminate].
    intros [= <-]. eapply dict_keys_set; eauto.
  - now intros [= <-].
Qed.

(** The four steps of a successful normalization. *)
Lemma format_properties_ok (p p' : dict) :
  format_properties p = Ok p' ->
  exists p1 p2 p3,
    reformat "asn" py_int p = Ok p1 /\
    reformat "ip" py_lower p1 = Ok p2 /\
    reformat "prefix" py_lower p2 = Ok p3 /\
    reformat "country_code" py_upper p3 = Ok p'.
Proof.
  unfold format_properties.
  destruct (reformat "asn" py_int p) as [p1|] eqn:E1; simpl; [|discriminate].
  destruct (reformat "ip" py_lower p1) as [p2|] eqn:E2; simpl; [|discriminate].
  destruct (reformat "prefix" py_lower p2) as [p3|] eqn:E3; simpl; [|discriminate].
  intros E4. exists p1, p2, p3. auto.
Qed.

Lemma format_properties_fixpoint (p p' : dict) :
  format_properties p = Ok p' -> format_properties p' = Ok p'.
Proof.
  intros H. destruct (format_properties_ok _ _ H) as (p1 & p2 & p3 & E1 & E2 & E3 & E4).
  assert (S1 : settled "asn" py_int p').
  { apply reformat_settles in E1; [|apply py_int_stable].
    eapply reformat_keeps_settled; [| |exact E4]; [discriminate|].
    eapply reformat_keeps_settled; [| |exact E3]; [discriminate|].
    eapply reformat_keeps_settled; [| |exact E2]; [discriminate|]. exact E1. }
  assert (S2 : settled "ip" py_lower p').
  { apply reformat_settles in E2; [|apply py_lower_stable].
    eapply reformat_keeps_settled; [| |exact E4]; [discriminate|].
    eapply reformat_keeps_settled; [| |exact E3]; [discriminate|]. exact E2. }
  assert (S3 : settled "prefix" py_lower p').
  { apply reformat_settles in E3; [|apply py_lower_stable].
    eapply reformat_keeps_settled; [| |exact E4]; [discriminate|]. exact E3. }
  assert (S4 : settled "country_code" py_upper p').
  { apply reformat_settles in E4; [|apply py_upper_stable]. exact E4. }
  unfold format_properties.
  rewrite (reformat_settled _ _ _ S1); simpl.
  rewrite (reformat_settled _ _ _ S2); simpl.
  rewrite (reformat_settled _ _ _ S3); simpl.
  apply (reformat_settled _ _ _ S4).
Qed.

Lemma format_properties_other (p p' : dict) (k : string) :
  format_properties p = Ok p' ->
  k <> "asn" -> k <> "ip" -> k <> "prefix" -> k <> "country_code" ->
  dict_get k p' = dict_get k p.
Proof.
  intros H Ha Hi Hp Hc.
  destruct (format_properties_ok _ _ H) as (p1 & p2 & p3 & E1 & E2 & E3 & E4).
  rewrite (reformat_other _ k _ _ _ (not_eq_sym Hc) E4).
  rewrite (reformat_other _ k _ _ _ (not_eq_sym Hp) E3).
  rewrite (reformat_other _ k _ _ _ (not_eq_sym Hi) E2).
  apply (reformat_other _ k _ _ _ (not_eq_sym Ha) E1).
Qed.

Lemma format_properties_keys (p p' : dict) :
  format_properties p = Ok p' -> dict_keys p' = dict_keys p.
Proof.
  intros H.
  destruct (format_properties_ok _ _ H) as (p1 & p2 & p3 & E1 & E2 & E3 & E4).
  rewrite (reformat_keys _ _ _ _ E4), (reformat_keys _ _ _ _ E3),
    (reformat_keys _ _ _ _ E2). apply (reformat_keys _ _ _ _ E1).
Qed.

(** On the heap, one step of the normalizer writes to the object it is
    given and nowhere else. *)
Lemma heap_reformat (k : string) (f : value -> res value) (l : Heap.loc)
    (d : dict) (h : gmap Heap.loc dict) :
  Heap.reformat k f l (<[l:=d]> h) =
    match reformat k f d with
    | Ok d' => (Ok tt, <[l:=d']> h)
    | Raise e => (Raise e, <[l:=d]> h)
    end.
Proof.
  unfold Heap.reformat, reformat. rewrite lookup_insert_eq. simpl.
  destruct (dict_get k d) as [v|] eqn:E; [|reflexivity].
  destruct (f v) as [v'|e]; simpl; [|reflexivity].
  now rewrite insert_insert_eq.
Qed.

Lemma heap_format_properties (l : Heap.loc) (h : gmap Heap.loc dict) :
  exists d',
    (Heap.format_properties l h).2 = <[fresh (dom h) := d']> h /\
    match format_properties (default [] (h !! l)) with
    | Ok p' => (Heap.format_properties l h).1 = Ok (fresh (dom h)) /\ d' = p'
    | Raise e => (Heap.format_properties l h).1 = Raise e
    end.
Proof.
  unfold Heap.format_properties, Heap.dict_copy, Heap.seq, format_properties.
  set (d := default [] (h !! l)). set (l' := fresh (dom h)).
  rewrite heap_reformat.
  destruct (reformat "asn" py_int d) as [p1|e]; simpl; [|eauto].
  rewrite heap_reformat.
  destruct (reformat "ip" py_lower p1) as [p2|e]; simpl; [|eauto].
  rewrite heap_reformat.
  destruct (reformat "prefix" py_lower p2) as [p3|e]; simpl; [|eauto].
  rewrite heap_reformat.
  destruct (reformat "country_code" py_upper p3) as [p4|e]; simpl; eauto.
Qed.

Lemma fresh_unallocated (h : gmap Heap.loc dict) : h !! fresh (dom h) = None.
Proof. apply not_elem_of_dom. apply is_fresh. Qed.

(** C8. The property normalizer is pure and idempotent.  On the heap it
    works on a copy: every dictionary that existed before the call,
    the caller's included, is unchanged after it, and the object returned
    holds what the value-level function computes.  Normalizing a
    normalized map changes nothing (and a map that cannot be normalized
    fails the same way both times).  Keys and their order are kept, and
    every property other than asn, ip, prefix and country_code keeps its
    value. *)
Theorem format_properties_pure_idempotent :
  (forall (h : gmap Heap.loc dict) (l : Heap.loc),
     h ⊆ (Heap.format_properties l h).2 /\
     res_bind (Heap.format_properties l h).1
       (fun l' => Ok (default [] ((Heap.format_properties l h).2 !! l')))
     = format_properties (default [] (h !! l))) /\
  (forall p : dict,
     res_bind (format_properties p) format_properties = format_properties p) /\
  (forall (p p' : dict) (k : string),
     format_properties p = Ok p' ->
     dict_keys p' = dict_keys p /\
     (k <> "asn" -> k <> "ip" -> k <> "prefix" -> k <> "country_code" ->
      dict_get k p' = dict_get k p)).
Proof.
  split; [|split].
  - intros h l. destruct (heap_format_properties l h) as (d' & Hh & Hr).
    rewrite Hh. split.
    + apply insert_subseteq. apply fresh_unallocated.
    + destruct (format_properties (default [] (h !! l))) as [p'|e].
      * destruct Hr as [-> ->]. simpl. now rewrite lookup_insert_eq.
      * now rewrite Hr.
  - intros p. destruct (format_properties p) as [p'|e] eqn:E; simpl; auto.
    now apply (format_properties_fixpoint p).
  - intros p p' k H. split.
    + now apply format_properties_keys.
    + intros. now apply (format_properties_other p).
Qed.

Lemma format_properties_pure_idempotent_witness :
  format_properties [("asn", VStr "65000"); ("descr", VStr "Foo")]
  = Ok [("asn", VInt 65000); ("descr", VStr "Foo")] /\
  dict_get "descr" [("asn", VInt 65000); ("descr", VStr "Foo")]
  = dict_get "descr" [("asn", VStr "65000"); ("descr", VStr "Foo")].
Proof.
  split; [reflexivity|].
  apply (proj2 (proj2 (proj2 format_properties_pure_idempotent)
           [("asn", VStr "65000"); ("descr", VStr "Foo")]
           [("asn", VInt 65000); ("descr", VStr "Foo")] "descr" eq_refl));
    discriminate.
Defined.

(** ** The memoization cache *)

Section LRUFacts.
Context {K V : Type} `{EqDecision K}.

Lemma lru_find_touch (k : K) (v : V) (c : lru K V) :
  lru_find k (lru_touch k v c) = Some v.
Proof. unfold lru_touch. simpl. now rewrite decide_True. Qed.

Lemma lru_find_add (m : Z) (k : K) (v : V) (c : lru K V) :
  lru_find k c = None -> lru_find k (lru_add m k v c) = Some v.
Proof. intros H. unfold lru_add. rewrite H. simpl. now rewrite decide_True. Qed.

End LRUFacts.

(** ** Framing: what a call does not touch *)

Section Frames.
Context {G : Type}.
Variable run : stmt -> G -> res (list Z) * G.

Lemma cache_frame_refl (s : iyp G) : cache_frame s s.
Proof. now repeat split. Qed.

Lemma cache_frame_trans (s1 s2 s3 : iyp G) :
  cache_frame s1 s2 -> cache_frame s2 s3 -> cache_frame s1 s3.
Proof. unfold cache_frame. intros (?&?&?) (?&?&?). repeat split; congruence. Qed.

Lemma framed_ret {A : Type} (a : A) : framed (G:=G) (ret a).
Proof. intros s. apply cache_frame_refl. Qed.

Lemma framed_lift {A : Type} (r : res A) : framed (G:=G) (lift r).
Proof. intros s. apply cache_frame_refl. Qed.

Lemma framed_bind {A B : Type} (m : M G A) (f : A -> M G B) :
  framed m -> (forall a, framed (f a)) -> framed (bind m f).
Proof.
  intros Hm Hf s. unfold bind. specialize (Hm s).
  destruct (m s) as [[a|e] s1]; simpl in *; auto.
  eapply cache_frame_trans; [exact Hm|]. apply Hf.
Qed.

Lemma framed_tx_run (q : stmt) : framed (tx_run run q).
Proof.
  intros s. unfold tx_run. destruct (run q (tx s)) as [r g]. simpl.
  now repeat split.
Qed.

Lemma framed_stderr_write (w : warning) : framed (G:=G) (stderr_write w).
Proof. intros s. now repeat split. Qed.

Lemma framed_try {A : Type} (body handler : M G A) :
  framed body -> framed handler ->
  framed (try_except_ConstraintError body handler).
Proof.
  intros Hb Hh s. unfold try_except_ConstraintError. specialize (Hb s).
  destruct (body s) as [[a|e] s1]; simpl in *; auto.
  destruct e; simpl; auto.
  eapply cache_frame_trans; [exact Hb|]. apply Hh.
Qed.

Lemma framed_get_node_body (type : label_arg) (prop : dict) (create : bool) :
  framed (get_node_body run type prop create).
Proof.
  unfold get_node_body.
  apply framed_bind; [apply framed_lift|]. intros p.
  apply framed_bind; [|intros; apply framed_ret].
  destruct create.
  - destruct (List.filter _ NODE_CONSTRAINTS_LABELS) as [|label ?].
    + apply framed_bind; [apply framed_tx_run|intros; apply framed_ret].
    + apply framed_bind; [apply framed_lift|]. intros cp.
      apply framed_try.
      * apply framed_bind; [apply framed_tx_run|intros; apply framed_ret].
      * apply framed_bind; [apply framed_stderr_write|]. intros _.
        apply framed_bind; [apply framed_tx_run|intros; apply framed_ret].
  - apply framed_bind; [apply framed_tx_run|intros; apply framed_ret].
Qed.

Lemma framed_get_node_extid_body (id_type : string) (id : value) :
  framed (get_node_extid_body run id_type id).
Proof.
  unfold get_node_extid_body.
  apply framed_bind; [apply framed_tx_run|intros; apply framed_ret].
Qed.

(** A hit: the cached value is returned and only the cache order
    changes. *)
Lemma lru_cached_hit {Key : Type} `{EqDecision Key}
    (cache : iyp G -> lru Key (option Z))
    (set_cache : lru Key (option Z) -> iyp G -> iyp G)
    (key : Key) (f : M G (option Z)) (s : iyp G) (v : option Z) :
  lru_find key (cache s) = Some v ->
  lru_cached cache set_cache key f s
  = (Ok v, set_cache (lru_touch key v (cache s)) s).
Proof. intros H. unfold lru_cached. now rewrite H. Qed.

Lemma get_node_hit (type : label_arg) (prop : dict) (create : bool)
    (s : iyp G) (v : option Z) :
  hashable type = true ->
  lru_find (key_of type prop create) (node_cache s) = Some v ->
  get_node run type prop create s
  = (Ok v, set_node_cache
             (lru_touch (key_of type prop create) v (node_cache s)) s).
Proof.
  intros Hh H. unfold get_node. rewrite Hh. now apply lru_cached_hit.
Qed.

Lemma get_node_extid_hit (id_type : string) (id : value)
    (s : iyp G) (v : option Z) :
  lru_find (extid_key_of id_type id) (extid_cache s) = Some v ->
  get_node_extid run id_type id s
  = (Ok v, set_extid_cache
             (lru_touch (extid_key_of id_type id) v (extid_cache s)) s).
Proof. intros H. unfold get_node_extid. now apply lru_cached_hit. Qed.

(** A miss: the body runs and its result, if it returns, is stored. *)
Lemma get_node_miss (type : label_arg) (prop : dict) (create : bool)
    (s : iyp G) :
  hashable type = true ->
  lru_find (key_of type prop create) (node_cache s) = None ->
  get_node run type prop create s
  = match get_node_body run type prop create s with
    | (Ok v, s') =>
        (Ok v, set_node_cache
                 ((key_of type prop create, v)
                  :: (if maxsize <=? Z.of_nat (length (node_cache s))
                      then removelast (node_cache s) else node_cache s)) s')
    | (Raise e, s') => (Raise e, s')
    end.
Proof.
  intros Hh H. unfold get_node, lru_cached. rewrite Hh, H.
  pose proof (framed_get_node_body type prop create s) as (Hc & _).
  destruct (get_node_body run type prop create s) as [[v|e] s']; auto.
  simpl in Hc. unfold lru_add. now rewrite Hc, H.
Qed.

(** Whatever a call returns is in the cache afterwards. *)
Lemma get_node_cached (type : label_arg) (prop : dict) (create : bool)
    (s s' : iyp G) (v : option Z) :
  get_node run type prop create s = (Ok v, s') ->
  lru_find (key_of type prop create) (node_cache s') = Some v.
Proof.
  destruct (hashable type) eqn:Hh;
    [|unfold get_node; rewrite Hh; discriminate].
  destruct (lru_find (key_of type prop create) (node_cache s)) as [v0|] eqn:E.
  - rewrite (get_node_hit _ _ _ _ _ Hh E). intros [= -> <-]. simpl.
    apply lru_find_touch.
  - rewrite (get_node_miss _ _ _ _ Hh E).
    destruct (get_node_body run type prop create s) as [[v1|e] s1];
      [|discriminate].
    intros [= -> <-]. simpl. now rewrite decide_True.
Qed.

(** A call that raises stores nothing. *)
Lemma get_node_raise_cache (type : label_arg) (prop : dict) (create : bool)
    (s s' : iyp G) (e : exn) :
  get_node run type prop create s = (Raise e, s') ->
  node_cache s' = node_cache s.
Proof.
  destruct (hashable type) eqn:Hh;
    [|unfold get_node; rewrite Hh; now intros [= _ <-]].
  destruct (lru_find (key_of type prop create) (node_cache s)) as [v0|] eqn:E.
  - rewrite (get_node_hit _ _ _ _ _ Hh E). discriminate.
  - rewrite (get_node_miss _ _ _ _ Hh E).
    pose proof (framed_get_node_body type prop create s) as (Hc & _).
    destruct (get_node_body run type prop create s) as [[v1|e1] s1];
      [discriminate|].
    intros [= _ <-]. exact Hc.
Qed.

End Frames.

Lemma silent_set_node_cache {G : Type} (c : lru node_key (option Z)) (s : iyp G) :
  silent s (set_node_cache c s).
Proof. now repeat split. Qed.

Lemma silent_set_extid_cache {G : Type} (c : lru extid_key (option Z)) (s : iyp G) :
  silent s (set_extid_cache c s).
Proof. now repeat split. Qed.

(** Equal dictionaries freeze to equal keys, whatever the order of their
    items. *)
Lemma frozendict_order (p1 p2 : dict) :
  NoDup (dict_keys p1) -> Permutation p1 p2 -> frozendict p1 = frozendict p2.
Proof. intros Hnd Hp. unfold frozendict. now apply list_to_map_proper. Qed.

(** ** The node resolver and its cache *)



(** C7, as the code has it.  Two calls with one label string that differ
    only in the order of the property-map items hit the same cache entry:
    when the first returns, the second returns the same value from the
    cache with nothing sent to the store.  The key is taken from the
    arguments as passed: the string and the integer form of an asn are
    two different keys. *)
Theorem get_node_property_order :
  (forall (G : Type) (run : stmt -> G -> res (list Z) * G)
          (type : label_arg) (p1 p2 : dict) (create : bool) (s s1 : iyp G)
          (v : option Z),
     NoDup (dict_keys p1) ->
     Permutation p1 p2 ->
     get_node run type p1 create s = (Ok v, s1) ->
     exists s2,
       get_node run type p2 create s1 = (Ok v, s2) /\ silent s1 s2) /\
  (forall (type : label_arg) (create : bool),
     key_of type [("asn", VStr "65000")] create
     <> key_of type [("asn", VInt 65000)] create).
Proof.
  split.
  - intros G run type p1 p2 create s s1 v Hnd Hp H.
    assert (Hh : hashable type = true).
    { unfold get_node in H.
      destruct (hashable type); [reflexivity|discriminate]. }
    apply get_node_cached in H.
    unfold key_of in H. rewrite (frozendict_order _ _ Hnd Hp) in H.
    rewrite (get_node_hit run _ _ _ _ _ Hh H).
    eexists. split; [reflexivity|]. apply silent_set_node_cache.
  - intros type create H.
    apply (f_equal (fun key : node_key => key.1.2 !! "asn")) in H.
    vm_compute in H. discriminate.
Qed.

Lemma get_node_property_order_witness :
  exists s2,
    get_node Neo4j.exec (LStr "PREFIX")
      [("af", VInt 4); ("prefix", VStr "10.0.0.0/8")] true
      (get_node Neo4j.exec (LStr "PREFIX")
         [("prefix", VStr "10.0.0.0/8"); ("af", VInt 4)] true
         (Neo4j.connect Neo4j.empty)).2
    = (Ok (Some 0), s2) /\
    silent (get_node Neo4j.exec (LStr "PREFIX")
              [("prefix", VStr "10.0.0.0/8"); ("af", VInt 4)] true
              (Neo4j.connect Neo4j.empty)).2 s2.
Proof.
  apply (proj1 get_node_property_order _ Neo4j.exec (LStr "PREFIX")
           [("prefix", VStr "10.0.0.0/8"); ("af", VInt 4)]
           [("af", VInt 4); ("prefix", VStr "10.0.0.0/8")] true
           (Neo4j.connect Neo4j.empty)).
  - apply (bool_decide_unpack _). vm_compute. exact I.
  - apply perm_swap.
  - vm_compute. reflexivity.
Defined.

(** C7, as stated, fails: the cache key is taken from the arguments as
    passed, before normalization.  ["65000"] and [65000] give two cache
    entries, and the second call goes to the store (which resolves it to
    the same node); a list of labels is refused in either order. *)
Lemma get_node_asn_forms_two_entries :
  let s0 := Neo4j.connect Neo4j.empty in
  let r1 := get_node Neo4j.exec (LStr "AS") [("asn", VStr "65000")] true s0 in
  let r2 := get_node Neo4j.exec (LStr "AS") [("asn", VInt 65000)] true r1.2 in
  r1.1 = Ok (Some 0) /\ r2.1 = Ok (Some 0) /\
  lru_find (key_of (LStr "AS") [("asn", VInt 65000)] true) (node_cache r1.2)
  = None /\
  length (queries r1.2) = 1%nat /\ length (queries r2.2) = 2%nat /\
  length (node_cache r2.2) = 2%nat /\
  get_node Neo4j.exec (LList ["AS"; "FOO"]) [("asn", VStr "65000")] true s0
  = (Raise TypeError, s0) /\
  get_node Neo4j.exec (LList ["FOO"; "AS"]) [("asn", VInt 65000)] true s0
  = (Raise TypeError, s0).
Proof. vm_compute. repeat split; reflexivity. Qed.

(** C10. A call whose [type] argument is a list raises [TypeError] in the
    memoization layer: the instance is left exactly as it was, so nothing
    was sent to the store and nothing was cached. *)
Theorem get_node_list_raises_TypeError {G : Type}
    (run : stmt -> G -> res (list Z) * G)
    (labels : list string) (prop : dict) (create : bool) (s : iyp G) :
  get_node run (LList labels) prop create s = (Raise TypeError, s).
Proof. reflexivity. Qed.

(** C9: a descriptor with two constrained labels has to be passed as a
    list, and the call raises before a merge key is chosen. *)
Theorem get_node_two_constrained_labels :
  get_node Neo4j.exec (LList ["AS"; "IP"])
    [("asn", VInt 65000); ("ip", VStr "::1"); ("af", VInt 6)] true
    (Neo4j.connect Neo4j.empty)
  = (Raise TypeError, Neo4j.connect Neo4j.empty).
Proof. reflexivity. Qed.

(** ** Transaction boundaries *)

(** C1, as stated, fails: neither [commit] nor [rollback] touches a cache.
    After a rollback the node created in the transaction is gone from the
    store, yet resolving it again answers its identifier from the cache
    without a query; after a commit that made an external id resolvable,
    the lookup still answers the [None] cached before. *)
Lemma stale_cache_across_boundaries :
  let s0 := Neo4j.connect Neo4j.empty in
  let s1 := (get_node Neo4j.exec (LStr "AS") [("asn", VInt 65000)] true s0).2 in
  let s2 := (rollback s1).2 in
  let r3 := get_node Neo4j.exec (LStr "AS") [("asn", VInt 65000)] true s2 in
  let ref := [("reference_org", VStr "TEST"); ("reference_url", VStr "http://x");
              ("reference_time", VTime "2022-01-01 00:00:00+00:00")] in
  let e1 := get_node_extid Neo4j.exec "PEERINGDB_ORG_ID" (VInt 7) s0 in
  let n2 := get_node Neo4j.exec (LStr "ORGANIZATION") [("name", VStr "X")] true e1.2 in
  let n3 := get_node Neo4j.exec (LStr "PEERINGDB_ORG_ID") [("id", VInt 7)] true n2.2 in
  let l4 := add_links Neo4j.exec 0 [("EXTERNAL_ID", 1, ref)] n3.2 in
  let s5 := (commit l4.2).2 in
  let e6 := get_node_extid Neo4j.exec "PEERINGDB_ORG_ID" (VInt 7) s5 in
  (node_cache s2 = node_cache s1 /\ node_cache s1 <> [] /\
   Neo4j.nodes (tx s2) = [] /\ r3.1 = Ok (Some 0) /\
   queries r3.2 = queries s1) /\
  (e1.1 = Ok None /\ n2.1 = Ok (Some 0) /\ n3.1 = Ok (Some 1) /\
   l4.1 = Ok tt /\ extid_cache s5 = extid_cache e1.2 /\
   (Neo4j.exec (MatchExtId "PEERINGDB_ORG_ID" (VInt 7)) (committed s5)).1
   = Ok [0] /\
   e6.1 = Ok None /\ queries e6.2 = queries s5).
Proof. vm_compute. repeat split; try reflexivity; discriminate. Qed.

(** C1, as the code has it.  [commit] and [rollback] leave both caches as
    they are, so a [get_node] or [get_node_extid] call after the boundary
    whose key was cached before it returns the cached value, identifier
    or [None], with nothing sent to the store. *)
Theorem commit_rollback_keep_caches {G : Type}
    (run : stmt -> G -> res (list Z) * G) (s : iyp G) :
  (node_cache (commit s).2 = node_cache s /\
   extid_cache (commit s).2 = extid_cache s /\
   node_cache (rollback s).2 = node_cache s /\
   extid_cache (rollback s).2 = extid_cache s) /\
  (forall (type : label_arg) (prop : dict) (create : bool) (v : option Z),
     hashable type = true ->
     lru_find (key_of type prop create) (node_cache s) = Some v ->
     (get_node run type prop create (commit s).2).1 = Ok v /\
     silent (commit s).2 (get_node run type prop create (commit s).2).2 /\
     (get_node run type prop create (rollback s).2).1 = Ok v /\
     silent (rollback s).2 (get_node run type prop create (rollback s).2).2) /\
  (forall (id_type : string) (id : value) (v : option Z),
     lru_find (extid_key_of id_type id) (extid_cache s) = Some v ->
     (get_node_extid run id_type id (commit s).2).1 = Ok v /\
     silent (commit s).2 (get_node_extid run id_type id (commit s).2).2 /\
     (get_node_extid run id_type id (rollback s).2).1 = Ok v /\
     silent (rollback s).2 (get_node_extid run id_type id (rollback s).2).2).
Proof.
  split; [now repeat split|]. split.
  - intros type prop create v Hh H.
    assert (Hc : lru_find (key_of type prop create) (node_cache (commit s).2)
                 = Some v) by exact H.
    assert (Hr : lru_find (key_of type prop create) (node_cache (rollback s).2)
                 = Some v) by exact H.
    rewrite (get_node_hit run _ _ _ _ _ Hh Hc).
    rewrite (get_node_hit run _ _ _ _ _ Hh Hr).
    repeat split.
  - intros id_type id v H.
    assert (Hc : lru_find (extid_key_of id_type id) (extid_cache (commit s).2)
                 = Some v) by exact H.
    assert (Hr : lru_find (extid_key_of id_type id) (extid_cache (rollback s).2)
                 = Some v) by exact H.
    rewrite (get_node_extid_hit run _ _ _ _ Hc).
    rewrite (get_node_extid_hit run _ _ _ _ Hr).
    repeat split.
Qed.

Lemma commit_rollback_keep_caches_witness :
  let s1 := (get_node Neo4j.exec (LStr "AS") [("asn", VInt 65000)] true
               (Neo4j.connect Neo4j.empty)).2 in
  (get_node Neo4j.exec (LStr "AS") [("asn", VInt 65000)] true (commit s1).2).1
  = Ok (Some 0) /\
  (get_node Neo4j.exec (LStr "AS") [("asn", VInt 65000)] true (rollback s1).2).1
  = Ok (Some 0).
Proof.
  intros s1.
  destruct (proj1 (proj2 (commit_rollback_keep_caches Neo4j.exec s1))
              (LStr "AS") [("asn", VInt 65000)] true (Some 0) eq_refl)
    as (Hc & _ & Hr & _).
  - vm_compute. reflexivity.
  - split; [exact Hc | exact Hr].
Defined.

(** ** The reference executor: answers of the merge statements *)

Lemma checked_ok (rows rows' : list Z) (g g' : Neo4j.graph)
    (ns : list Neo4j.node) (next : Z) :
  Neo4j.checked rows g ns next = (Ok rows', g') ->
  rows' = rows /\ g' = Neo4j.mkGraph ns (Neo4j.rels g) next /\
  Neo4j.unique_ok ns = true.
Proof.
  unfold Neo4j.checked. destruct (Neo4j.unique_ok ns); [|discriminate].
  now intros [= <- <-].
Qed.

Lemma checked_raise (rows : list Z) (g g' : Neo4j.graph)
    (ns : list Neo4j.node) (next : Z) (e : exn) :
  Neo4j.checked rows g ns next = (Raise e, g') ->
  e = ConstraintError /\ g' = g.
Proof.
  unfold Neo4j.checked. destruct (Neo4j.unique_ok ns); [discriminate|].
  now intros [= <- <-].
Qed.

(** A merge that succeeds returns at least one row. *)
Lemma exec_Merge_rows (type_str : string) (prop : dict) (g g' : Neo4j.graph)
    (rows : list Z) :
  Neo4j.exec (Merge type_str prop) g = (Ok rows, g') -> rows <> [].
Proof.
  simpl. destruct (List.filter _ (Neo4j.nodes g)) as [|n found].
  - intros H. apply checked_ok in H as (-> & _). discriminate.
  - intros [= <- _]. discriminate.
Qed.

Lemma exec_MergeSet_rows (label : string) (cp prop : dict) (labels : list string)
    (g g' : Neo4j.graph) (rows : list Z) :
  Neo4j.exec (MergeSet label cp prop labels) g = (Ok rows, g') -> rows <> [].
Proof.
  simpl. destruct (List.filter _ (Neo4j.nodes g)) as [|n found].
  - intros H. apply checked_ok in H as (-> & _). discriminate.
  - intros H. apply checked_ok in H as (-> & _). discriminate.
Qed.

(** A creating call that misses the cache and returns [None] went through
    the handler of the constraint violation. *)
Lemma create_None_is_fallback (type : label_arg) (prop : dict)
    (s s' : iyp Neo4j.graph) :
  get_node_body Neo4j.exec type prop true s = (Ok None, s') ->
  exists p, format_properties prop = Ok p /\
            stderr s' = (stderr s ++ [CannotMerge p])%list.
Proof.
  unfold get_node_body, bind, lift, ret.
  destruct (format_properties prop) as [p|e]; [|discriminate].
  destruct (List.filter _ NODE_CONSTRAINTS_LABELS) as [|label rest].
  - unfold tx_run.
    destruct (Neo4j.exec (Merge _ p) (tx s)) as [[rows|e] g] eqn:E;
      [|discriminate].
    apply exec_Merge_rows in E. destruct rows; [congruence|discriminate].
  - destruct (constraint_props (constraint_keys label) p) as [cp|e];
      [|discriminate].
    unfold try_except_ConstraintError, tx_run, stderr_write.
    destruct (Neo4j.exec (MergeSet label cp p _) (tx s)) as [[rows|e] g] eqn:E.
    + apply exec_MergeSet_rows in E. destruct rows; [congruence|discriminate].
    + destruct e; try discriminate. simpl.
      intros H. injection H as _ <-. simpl. eauto.
Qed.




(** ** The constraint-violation handler *)

Lemma has_constraints_single (label : string) :
  In label NODE_CONSTRAINTS_LABELS ->
  List.filter (fun l => existsb (String.eqb l) [label]) NODE_CONSTRAINTS_LABELS
  = [label].
Proof.
  intros H. simpl in H. decompose [or] H; subst; try reflexivity. contradiction.
Qed.

(** The registry read by label: an entry's keys are those of
    [NODE_CONSTRAINTS[label]], and its label is a constrained one. *)
Lemma registry_keys (label : string)
    (props : list (string * list constraint)) :
  In (label, props) NODE_CONSTRAINTS ->
  constraint_keys label = map fst props /\ In label NODE_CONSTRAINTS_LABELS.
Proof.
  intros H. simpl in H.
  decompose [or] H; try contradiction;
    match goal with E : (_, _) = (_, _) |- _ => injection E as <- <- end;
    (split; [reflexivity | simpl; tauto]).
Qed.

(** The dictionary with the given keys, in that order, and the values the
    properties have at them is the one [constraint_props] builds. *)
Lemma constraint_props_complete (keys : list string) (p cp : dict) :
  map fst cp = keys ->
  (forall k v, In (k, v) cp -> dict_get k p = Some v) ->
  constraint_props keys p = Ok cp.
Proof.
  revert keys. induction cp as [|[c v] cp IH]; intros keys Hk Hv.
  - simpl in Hk. now subst keys.
  - simpl in Hk. subst keys. simpl. unfold dict_item.
    rewrite (Hv c v (or_introl eq_refl)). simpl.
    rewrite (IH (map fst cp) eq_refl); [reflexivity|].
    intros k w Hin. apply Hv. now right.
Qed.




(** ** The relationship batcher *)

Lemma add_links_loop_missing (links : list link) :
  Exists (fun l => has_reference l = false) links ->
  forall merges, exists e, add_links_loop links merges = Raise e.
Proof.
  induction 1 as [[[type dst] prop] links Hx | [[type dst] prop] links _ IH];
    intros merges; simpl.
  - unfold has_reference in Hx. simpl in Hx.
    destruct (dict_in "reference_org" prop); simpl in *; [|eauto].
    destruct (dict_in "reference_url" prop); simpl in *; [|eauto].
    destruct (dict_in "reference_time" prop); simpl in *; [discriminate|eauto].
  - destruct (dict_in "reference_org" prop); simpl; [|eauto].
    destruct (dict_in "reference_url" prop); simpl; [|eauto].
    destruct (dict_in "reference_time" prop); simpl; [|eauto].
    destruct (format_properties prop); simpl; [|eauto].
    apply IH.
Qed.

Lemma add_links_loop_ok (links : list link) :
  Forall (fun l => has_reference l = true) links ->
  Forall (fun l => is_ok (format_properties l.2) = true) links ->
  forall merges, exists clauses,
    add_links_loop links merges = Ok (merges ++ clauses)%list /\
    Forall2 clause_of links clauses.
Proof.
  induction links as [|[[type dst] prop] links IH]; intros Href Hfmt merges.
  - exists []. simpl. rewrite app_nil_r. split; [reflexivity|constructor].
  - apply Forall_cons_1 in Href as [Hr Href].
    apply Forall_cons_1 in Hfmt as [Hf Hfmt].
    unfold has_reference in Hr. simpl in Hr, Hf.
    apply andb_prop in Hr as [Hr Ht]. apply andb_prop in Hr as [Ho Hu].
    simpl. rewrite Ho, Hu, Ht. simpl.
    destruct (format_properties prop) as [p|e] eqn:E; [|discriminate]. simpl.
    destruct (IH Href Hfmt (merges ++ [(type, dst, p)])%list)
      as (clauses & Hloop & Hall).
    exists ((type, dst, p) :: clauses). split.
    + rewrite Hloop. now rewrite <- app_assoc.
    + constructor; [|exact Hall]. now split.
Qed.

Lemma add_links_loop_cases (links merges : list link) :
  (exists e, add_links_loop links merges = Raise e) \/
  (exists clauses,
     add_links_loop links merges = Ok (merges ++ clauses)%list /\
     Forall2 clause_of links clauses).
Proof.
  revert merges. induction links as [|[[type dst] prop] links IH];
    intros merges; simpl.
  - right. exists []. rewrite app_nil_r. split; [reflexivity|constructor].
  - destruct (dict_in "reference_org" prop); simpl; [|eauto].
    destruct (dict_in "reference_url" prop); simpl; [|eauto].
    destruct (dict_in "reference_time" prop); simpl; [|eauto].
    destruct (format_properties prop) as [p|e] eqn:E; simpl; [|eauto].
    destruct (IH (merges ++ [(type, dst, p)])%list)
      as [[e He]|(clauses & Hloop & Hall)]; [eauto|].
    right. exists ((type, dst, p) :: clauses). split.
    + rewrite Hloop. now rewrite <- app_assoc.
    + constructor; [|exact Hall]. now split.
Qed.

(** C3, as stated, fails in its last part: carrying the three keys is not
    enough for the links to be merged.  Here both nodes exist and the only
    link has its three provenance keys, but its asn does not parse: the
    call raises and nothing is sent. *)
Lemma add_links_reference_keys_not_enough :
  let s0 := Neo4j.connect Neo4j.empty in
  let s1 := (get_node Neo4j.exec (LStr "AS") [("asn", VInt 65000)] true s0).2 in
  let s2 := (get_node Neo4j.exec (LStr "PREFIX")
               [("prefix", VStr "10.0.0.0/8"); ("af", VInt 4)] true s1).2 in
  let l := ("ORIGINATE", 1,
            [("reference_org", VStr "TEST"); ("reference_url", VStr "http://x");
             ("reference_time", VTime "2022-01-01 00:00:00+00:00");
             ("asn", VStr "AS65000")]) in
  Neo4j.node_exists 0 (tx s2) = true /\ Neo4j.node_exists 1 (tx s2) = true /\
  has_reference l = true /\
  add_links Neo4j.exec 0 [l] s2 = (Raise ValueError, s2).
Proof. vm_compute. repeat split; reflexivity. Qed.

(** C3, as the code has it.  When some link entry lacks one of
    reference_org, reference_url and reference_time, the call raises with
    the instance exactly as it was: no statement was sent, so no link of
    the batch was merged.  When every entry carries the three keys and
    its properties normalize, exactly one statement is sent, carrying one
    merge clause per link, in order.  In every case the batch goes out
    whole or not at all: either the call raises with nothing sent, or one
    statement with a clause for each link was sent. *)
Theorem add_links_all_or_nothing {G : Type}
    (run : stmt -> G -> res (list Z) * G)
    (src_node : Z) (links : list link) (s : iyp G) :
  (Exists (fun l => has_reference l = false) links ->
   exists e, add_links run src_node links s = (Raise e, s)) /\
  (Forall (fun l => has_reference l = true) links ->
   Forall (fun l => is_ok (format_properties l.2) = true) links ->
   exists clauses,
     Forall2 clause_of links clauses /\
     queries (add_links run src_node links s).2
     = (queries s ++ [Links src_node clauses])%list /\
     tx (add_links run src_node links s).2
     = (run (Links src_node clauses) (tx s)).2) /\
  ((exists e, add_links run src_node links s = (Raise e, s)) \/
   (exists clauses,
      Forall2 clause_of links clauses /\
      queries (add_links run src_node links s).2
      = (queries s ++ [Links src_node clauses])%list)).
Proof.
  split; [|split].
  - intros Hx. destruct (add_links_loop_missing links Hx []) as [e He].
    exists e. unfold add_links, bind, lift. now rewrite He.
  - intros Href Hfmt.
    destruct (add_links_loop_ok links Href Hfmt []) as (clauses & Hloop & Hall).
    simpl in Hloop. exists clauses. split; [exact Hall|].
    unfold add_links, bind, lift, tx_run, ret. rewrite Hloop.
    destruct (run (Links src_node clauses) (tx s)) as [[rows|e] g]; simpl;
      now split.
  - destruct (add_links_loop_cases links []) as [[e He]|(clauses & Hloop & Hall)].
    + left. exists e. unfold add_links, bind, lift. now rewrite He.
    + right. simpl in Hloop. exists clauses. split; [exact Hall|].
      unfold add_links, bind, lift, tx_run, ret. rewrite Hloop.
      destruct (run (Links src_node clauses) (tx s)) as [[rows|e] g];
        reflexivity.
Qed.

Lemma add_links_all_or_nothing_witness :
  let ref := [("reference_org", VStr "TEST"); ("reference_url", VStr "http://x");
              ("reference_time", VTime "2022-01-01 00:00:00+00:00")] in
  let s := Neo4j.connect Neo4j.empty in
  (exists e,
     add_links Neo4j.exec 0
       [("ORIGINATE", 1, ref);
        ("ORIGINATE", 2, [("reference_org", VStr "TEST")])] s
     = (Raise e, s)) /\
  (exists clauses,
     Forall2 clause_of [("ORIGINATE", 1, ref); ("ORIGINATE", 2, ref)] clauses /\
     queries (add_links Neo4j.exec 0
                [("ORIGINATE", 1, ref); ("ORIGINATE", 2, ref)] s).2
     = (queries s ++ [Links 0 clauses])%list /\
     tx (add_links Neo4j.exec 0
           [("ORIGINATE", 1, ref); ("ORIGINATE", 2, ref)] s).2
     = (Neo4j.exec (Links 0 clauses) (tx s)).2).
Proof.
  intros ref s. split.
  - apply (proj1 (add_links_all_or_nothing Neo4j.exec 0 _ s)).
    apply Exists_cons_tl. apply Exists_cons_hd. reflexivity.
  - apply (proj1 (proj2 (add_links_all_or_nothing Neo4j.exec 0 _ s))).
    + repeat constructor.
    + repeat constructor.
Defined.

(** ** Merging on the constrained key *)

Lemma dict_get_None (k : string) (d : dict) :
  ~ In k (dict_keys d) -> dict_get k d = None.
Proof.
  induction d as [|[k' v'] d IH]; simpl; [reflexivity|].
  intros H. destruct (String.eqb k k') eqn:E.
  - apply String.eqb_eq in E. subst. tauto.
  - apply IH. tauto.
Qed.

Lemma dict_get_In (k : string) (v : value) (d : dict) :
  dict_get k d = Some v -> In (k, v) d.
Proof.
  induction d as [|[k' v'] d IH]; simpl; [discriminate|].
  destruct (String.eqb k k') eqn:E.
  - apply String.eqb_eq in E. intros [= ->]. left. congruence.
  - intros H. right. auto.
Qed.

Lemma set_props_get_other (p : dict) (k : string) (d : dict) :
  dict_get k p = None ->
  dict_get k (Neo4j.set_props p d) = dict_get k d.
Proof.
  unfold Neo4j.set_props. revert d.
  induction p as [|[k0 v0] p IH]; intros d; simpl; [reflexivity|].
  destruct (String.eqb k k0) eqn:E; [discriminate|].
  intros H. rewrite (IH _ H). apply dict_get_set_ne.
  apply String.eqb_neq in E. congruence.
Qed.

Lemma set_props_get (p : dict) (k : string) (v : value) (d : dict) :
  NoDup (dict_keys p) -> dict_get k p = Some v ->
  dict_get k (Neo4j.set_props p d) = Some v.
Proof.
  unfold Neo4j.set_props. revert d.
  induction p as [|[k0 v0] p IH]; intros d Hnd; simpl; [discriminate|].
  simpl in Hnd. apply NoDup_cons in Hnd as [Hk0 Hnd].
  destruct (String.eqb k k0) eqn:E.
  - apply String.eqb_eq in E. subst k0. intros [= ->].
    assert (Hn : dict_get k p = None).
    { apply dict_get_None. intros Hin. apply Hk0. now apply list_elem_of_In. }
    pose proof (set_props_get_other p k (dict_set k v d) Hn) as Ho.
    unfold Neo4j.set_props in Ho. rewrite Ho. apply dict_get_set_eq.
  - intros H. now apply IH.
Qed.

Lemma constraint_props_get (keys : list string) (p cp : dict) :
  constraint_props keys p = Ok cp ->
  map fst cp = keys /\ forall k v, In (k, v) cp -> dict_get k p = Some v.
Proof.
  revert cp. induction keys as [|c keys IH]; intros cp; simpl.
  - intros [= <-]. split; [reflexivity|]. intros k v [].
  - unfold dict_item. destruct (dict_get c p) as [vc|] eqn:E; simpl; [|discriminate].
    destruct (constraint_props keys p) as [rest|e]; simpl; [|discriminate].
    intros [= <-]. destruct (IH rest eq_refl) as [Hk Hv]. split.
    + simpl. now rewrite Hk.
    + intros k v [[= <- <-]|Hin]; auto.
Qed.

Lemma has_props_spec (cp : dict) (n : Neo4j.node) :
  Neo4j.has_props cp n = true <->
  forall k v, In (k, v) cp -> dict_get k (Neo4j.node_props n) = Some v.
Proof.
  unfold Neo4j.has_props. rewrite forallb_forall. split.
  - intros H k v Hin. specialize (H (k, v) Hin). simpl in H.
    now apply bool_decide_eq_true in H.
  - intros H [k v] Hin. apply bool_decide_eq_true. auto.
Qed.

Lemma fits_single (label : string) (cp : dict) (n : Neo4j.node) :
  Neo4j.fits [label] cp n = true <->
  Neo4j.has_label label n = true /\ Neo4j.has_props cp n = true.
Proof.
  unfold Neo4j.fits. simpl. rewrite andb_true_r. apply andb_true_iff.
Qed.

(** A node that fits a pattern holding the unique key contributes the
    key's value to the constrained values. *)
Lemma fits_constrained_value (label k : string) (vk : value) (cp : dict)
    (n : Neo4j.node) (ns : list Neo4j.node) :
  In (k, vk) cp -> In n ns -> Neo4j.fits [label] cp n = true ->
  In vk (Neo4j.constrained_values label k ns).
Proof.
  intros Hk Hin Hfit. apply fits_single in Hfit as [Hl Hp].
  unfold Neo4j.constrained_values. apply in_flat_map. exists n.
  split; [exact Hin|]. rewrite Hl.
  rewrite (proj1 (has_props_spec cp n) Hp k vk Hk). now left.
Qed.

(** Under the uniqueness constraint at most one node fits. *)
Lemma fits_at_most_one (label k : string) (vk : value) (cp : dict)
    (ns : list Neo4j.node) :
  In (k, vk) cp ->
  NoDup (Neo4j.constrained_values label k ns) ->
  (length (List.filter (Neo4j.fits [label] cp) ns) <= 1)%nat.
Proof.
  intros Hk. induction ns as [|n ns IH]; [simpl; lia|].
  intros Hnd. unfold Neo4j.constrained_values in Hnd. cbn [flat_map] in Hnd.
  fold (Neo4j.constrained_values label k ns) in Hnd.
  apply NoDup_app in Hnd as (Hn & Hdisj & Hns).
  cbn [List.filter].
  destruct (Neo4j.fits [label] cp n) eqn:Hfit; [|auto].
  destruct (List.filter (Neo4j.fits [label] cp) ns) as [|m rest] eqn:Hf;
    [simpl; lia|].
  exfalso.
  assert (Hm : In m ns /\ Neo4j.fits [label] cp m = true).
  { apply filter_In. rewrite Hf. now left. }
  destruct Hm as [Hm Hmfit].
  apply (Hdisj vk).
  - apply fits_single in Hfit as [Hl Hp]. rewrite Hl.
    rewrite (proj1 (has_props_spec cp n) Hp k vk Hk).
    apply list_elem_of_In. now left.
  - apply list_elem_of_In. eapply fits_constrained_value; eauto.
Qed.

Lemma fits_the_one (label k : string) (vk : value) (cp : dict)
    (ns : list Neo4j.node) (n : Neo4j.node) :
  In (k, vk) cp ->
  NoDup (Neo4j.constrained_values label k ns) ->
  In n ns -> Neo4j.fits [label] cp n = true ->
  List.filter (Neo4j.fits [label] cp) ns = [n].
Proof.
  intros Hk Hnd Hin Hfit.
  pose proof (fits_at_most_one label k vk cp ns Hk Hnd) as Hlen.
  assert (Hf : In n (List.filter (Neo4j.fits [label] cp) ns)).
  { apply filter_In. auto. }
  destruct (List.filter (Neo4j.fits [label] cp) ns) as [|m [|m' rest]];
    simpl in *; [tauto| |lia].
  destruct Hf as [->|[]]. reflexivity.
Qed.

Lemma unique_ok_NoDup (label k : string) (ns : list Neo4j.node) :
  Neo4j.unique_ok ns = true -> In (label, k) Neo4j.unique_constraints ->
  NoDup (Neo4j.constrained_values label k ns).
Proof.
  unfold Neo4j.unique_ok. rewrite forallb_forall. intros H Hin.
  specialize (H (label, k) Hin). simpl in H.
  now apply bool_decide_eq_true in H.
Qed.

(** A label with a unique key is constrained, and the key is among the
    properties of its match pattern; its text holds no colon. *)
Lemma unique_key_facts (label k : string) :
  In (label, k) Neo4j.unique_constraints ->
  In label NODE_CONSTRAINTS_LABELS /\ In k (constraint_keys label) /\
  Neo4j.labels_of label = [label].
Proof.
  intros H. vm_compute in H.
  decompose [or] H; try contradiction;
    match goal with E : (_, _) = (_, _) |- _ => injection E as <- <- end;
    vm_compute; tauto.
Qed.

Lemma on_set_fits (label : string) (cp p : dict) (n : Neo4j.node) :
  NoDup (dict_keys p) ->
  (forall k v, In (k, v) cp -> dict_get k p = Some v) ->
  Neo4j.has_label label n = true ->
  Neo4j.fits [label] cp (Neo4j.on_set p [label] n) = true.
Proof.
  intros Hnd Hcp Hl. apply fits_single. split.
  - unfold Neo4j.has_label, Neo4j.on_set, Neo4j.add_labels in *. simpl.
    now rewrite Hl.
  - apply has_props_spec. intros k v Hin. simpl.
    apply set_props_get; auto.
Qed.

(** What a successful constrained merge leaves behind: the constraints
    hold, and the first row names a node that fits the key pattern. *)
Lemma exec_MergeSet_ok (label : string) (cp p : dict) (g g' : Neo4j.graph)
    (rows : list Z) :
  NoDup (dict_keys p) ->
  (forall k v, In (k, v) cp -> dict_get k p = Some v) ->
  Neo4j.exec (MergeSet label cp p [label]) g = (Ok rows, g') ->
  graph_ok g' /\
  exists n, In n (Neo4j.nodes g') /\ single rows = Some (Neo4j.node_id n) /\
            Neo4j.fits [label] cp n = true.
Proof.
  intros Hnd Hcp. cbn [Neo4j.exec].
  destruct (List.filter (Neo4j.fits [label] cp) (Neo4j.nodes g))
    as [|n0 found] eqn:Hf.
  - intros H. apply checked_ok in H as (-> & -> & Hok).
    split; [exact Hok|]. eexists. split; [|split].
    + cbn [Neo4j.nodes]. apply in_or_app. right. left. reflexivity.
    + reflexivity.
    + apply on_set_fits; auto. unfold Neo4j.has_label. simpl.
      now rewrite String.eqb_refl.
  - intros H. apply checked_ok in H as (-> & -> & Hok).
    split; [exact Hok|].
    assert (Hn0 : In n0 (Neo4j.nodes g) /\ Neo4j.fits [label] cp n0 = true).
    { apply filter_In. rewrite Hf. now left. }
    destruct Hn0 as [Hin Hfit].
    exists (Neo4j.on_set p [label] n0). split; [|split].
    + cbn [Neo4j.nodes]. apply in_map_iff. exists n0. now rewrite Hfit.
    + reflexivity.
    + apply on_set_fits; auto. now apply fits_single in Hfit as [Hl _].
Qed.

(** With a fitting node in a store that satisfies the constraints, the
    constrained merge takes its match branch on exactly that node. *)
Lemma exec_MergeSet_existing (label k : string) (vk : value) (cp p : dict)
    (g : Neo4j.graph) (n : Neo4j.node) :
  In (label, k) Neo4j.unique_constraints -> graph_ok g ->
  In (k, vk) cp -> In n (Neo4j.nodes g) -> Neo4j.fits [label] cp n = true ->
  Neo4j.exec (MergeSet label cp p [label]) g
  = Neo4j.checked [Neo4j.node_id n] g
      (map (fun m => if Neo4j.fits [label] cp m
                     then Neo4j.on_set p [label] m else m) (Neo4j.nodes g))
      (Neo4j.next_id g).
Proof.
  intros Hu Hok Hk Hin Hfit. cbn [Neo4j.exec].
  rewrite (fits_the_one label k vk cp _ n Hk
             (unique_ok_NoDup _ _ _ Hok Hu) Hin Hfit).
  reflexivity.
Qed.

Lemma exec_MergeSet_raise (label : string) (cp p : dict) (labels : list string)
    (g g' : Neo4j.graph) (e : exn) :
  Neo4j.exec (MergeSet label cp p labels) g = (Raise e, g') ->
  e = ConstraintError /\ g' = g.
Proof.
  cbn [Neo4j.exec].
  destruct (List.filter (Neo4j.fits [label] cp) (Neo4j.nodes g));
    apply checked_raise.
Qed.

Lemma app_one_neq {A : Type} (l : list A) (x : A) : (l ++ [x])%list <> l.
Proof.
  intros H. apply (f_equal (@length A)) in H.
  rewrite length_app in H. simpl in H. lia.
Qed.

(** A creating resolve of a label with a unique key that goes to the store
    and returns an identifier: the store satisfies the constraints
    afterwards and holds a node of that identifier fitting the key
    pattern. *)
Lemma create_body_fitting (label k : string) (prop p cp : dict)
    (s s1 : iyp Neo4j.graph) (i : Z) :
  In (label, k) Neo4j.unique_constraints ->
  NoDup (dict_keys prop) ->
  format_properties prop = Ok p ->
  constraint_props (constraint_keys label) p = Ok cp ->
  graph_ok (tx s) ->
  get_node_body Neo4j.exec (LStr label) prop true s = (Ok (Some i), s1) ->
  graph_ok (tx s1) /\
  exists n, In n (Neo4j.nodes (tx s1)) /\ Neo4j.node_id n = i /\
            Neo4j.fits [label] cp n = true.
Proof.
  intros Hu Hnd Hp Hcp Hok.
  destruct (unique_key_facts _ _ Hu) as (Hl & Hkin & Hlo).
  destruct (constraint_props_get _ _ _ Hcp) as [_ Hget].
  assert (Hndp : NoDup (dict_keys p)).
  { now rewrite (format_properties_keys _ _ Hp). }
  unfold get_node_body, bind, lift. rewrite Hp.
  rewrite (has_constraints_single _ Hl), Hcp.
  unfold try_except_ConstraintError, tx_run, stderr_write, ret.
  destruct (Neo4j.exec (MergeSet label cp p [label]) (tx s))
    as [[rows|e] g1] eqn:E.
  - intros H. injection H as Hrows <-. cbn [tx].
    destruct (exec_MergeSet_ok _ _ _ _ _ _ Hndp Hget E)
      as (Hok1 & n & Hin & Hsingle & Hfit).
    split; [exact Hok1|]. exists n. repeat split; auto. congruence.
  - apply exec_MergeSet_raise in E as [-> ->]. cbn.
    rewrite Hlo. intros H. injection H as Hrows <-. cbn [tx].
    split; [exact Hok|].
    destruct (List.filter (Neo4j.fits [label] cp) (Neo4j.nodes (tx s)))
      as [|n found] eqn:Hf; [discriminate|].
    injection Hrows as Hi.
    assert (Hn : In n (Neo4j.nodes (tx s)) /\ Neo4j.fits [label] cp n = true).
    { apply filter_In. rewrite Hf. now left. }
    exists n. tauto.
Qed.

(** C2, as stated, fails, in three ways.  (1) [SET a.k = v] writes the
    supplied properties and keeps the others: a property only the first
    descriptor carries survives the second resolve.  (2) A descriptor that
    is already cached is answered from the cache and writes nothing: after
    resolving B, A and B again, the node holds A's values.  (3) For PREFIX
    (and IP) the match pattern also holds af: equal prefixes with another
    af run into the uniqueness constraint and resolve to [None].  Every
    normalized descriptor is one the statement text carries unchanged. *)
Lemma constrained_merge_not_last_descriptor :
  let s0 := Neo4j.connect Neo4j.empty in
  let a := [("asn", VInt 65000); ("name", VStr "A"); ("note", VStr "x")] in
  let b := [("asn", VStr "65000"); ("name", VStr "B")] in
  let r1 := get_node Neo4j.exec (LStr "AS") a true s0 in
  let r2 := get_node Neo4j.exec (LStr "AS") b true r1.2 in
  let q1 := get_node Neo4j.exec (LStr "AS") b true s0 in
  let q2 := get_node Neo4j.exec (LStr "AS") a true q1.2 in
  let q3 := get_node Neo4j.exec (LStr "AS") b true q2.2 in
  let p1 := get_node Neo4j.exec (LStr "PREFIX")
              [("prefix", VStr "10.0.0.0/8"); ("af", VInt 4)] true s0 in
  let p2 := get_node Neo4j.exec (LStr "PREFIX")
              [("prefix", VStr "10.0.0.0/8"); ("af", VInt 6)] true p1.2 in
  (r1.1 = Ok (Some 0) /\ r2.1 = Ok (Some 0) /\
   map Neo4j.node_props (Neo4j.nodes (tx r2.2))
   = [[("asn", VInt 65000); ("name", VStr "B"); ("note", VStr "x")]]) /\
  (q1.1 = Ok (Some 0) /\ q2.1 = Ok (Some 0) /\ q3.1 = Ok (Some 0) /\
   map Neo4j.node_props (Neo4j.nodes (tx q3.2))
   = [[("asn", VInt 65000); ("name", VStr "A"); ("note", VStr "x")]]) /\
  (p1.1 = Ok (Some 0) /\ p2.1 = Ok None) /\
  forallb readable_dict
    [a; [("asn", VInt 65000); ("name", VStr "B")];
     [("prefix", VStr "10.0.0.0/8"); ("af", VInt 4)];
     [("prefix", VStr "10.0.0.0/8"); ("af", VInt 6)]] = true.
Proof. vm_compute. repeat split; reflexivity. Qed.

(** Two creating resolves that send the same merge pattern, both going
    to the store and the second raising no constraint violation: the
    second returns the node of the first and sets its properties on it. *)
Lemma constrained_merge_on_pattern (label k : string)
    (prop1 prop2 p1 p2 cp : dict) (s s1 s2 : iyp Neo4j.graph) (i : Z)
    (r : res (option Z)) :
  In (label, k) Neo4j.unique_constraints ->
  graph_ok (tx s) ->
  NoDup (dict_keys prop1) -> NoDup (dict_keys prop2) ->
  format_properties prop1 = Ok p1 -> format_properties prop2 = Ok p2 ->
  constraint_props (constraint_keys label) p1 = Ok cp ->
  constraint_props (constraint_keys label) p2 = Ok cp ->
  lru_find (key_of (LStr label) prop1 true) (node_cache s) = None ->
  get_node Neo4j.exec (LStr label) prop1 true s = (Ok (Some i), s1) ->
  lru_find (key_of (LStr label) prop2 true) (node_cache s1) = None ->
  get_node Neo4j.exec (LStr label) prop2 true s1 = (r, s2) ->
  stderr s2 = stderr s1 ->
  r = Ok (Some i) /\
  exists n1 n2,
    In n1 (Neo4j.nodes (tx s1)) /\ In n2 (Neo4j.nodes (tx s2)) /\
    Neo4j.node_id n1 = i /\ Neo4j.node_id n2 = i /\
    Neo4j.node_props n2 = Neo4j.set_props p2 (Neo4j.node_props n1) /\
    (forall key v, dict_get key p2 = Some v ->
                   dict_get key (Neo4j.node_props n2) = Some v) /\
    (forall key, dict_get key p2 = None ->
                 dict_get key (Neo4j.node_props n2)
                 = dict_get key (Neo4j.node_props n1)).
Proof.
  intros Hu Hok Hnd1 Hnd2 Hp1 Hp2 Hcp1 Hcp2 Hmiss1 Hcall1 Hmiss2 Hcall2 Herr.
  destruct (unique_key_facts _ _ Hu) as (Hl & Hkin & Hlo).
  (* the first call *)
  rewrite (get_node_miss Neo4j.exec (LStr label) prop1 true s eq_refl Hmiss1)
    in Hcall1.
  destruct (get_node_body Neo4j.exec (LStr label) prop1 true s)
    as [[v1|e1] s1'] eqn:E1; [|discriminate].
  injection Hcall1 as -> <-.
  destruct (create_body_fitting _ _ _ _ _ _ _ _ Hu Hnd1 Hp1 Hcp1 Hok E1)
    as (Hok1 & n1 & Hin1 & Hid1 & Hfit1).
  (* the key value in the pattern *)
  destruct (constraint_props_get _ _ _ Hcp2) as [Hkeys Hget2].
  assert (Hk : exists vk, In (k, vk) cp).
  { rewrite <- Hkeys in Hkin. apply in_map_iff in Hkin as ([k' vk] & Hk' & Hin).
    simpl in Hk'. subst k'. eauto. }
  destruct Hk as [vk Hk].
  assert (Hndp2 : NoDup (dict_keys p2)).
  { now rewrite (format_properties_keys _ _ Hp2). }
  (* the second call *)
  rewrite (get_node_miss Neo4j.exec (LStr label) prop2 true _ eq_refl Hmiss2)
    in Hcall2.
  unfold get_node_body, bind, lift in Hcall2. rewrite Hp2 in Hcall2.
  rewrite (has_constraints_single _ Hl), Hcp2 in Hcall2.
  unfold try_except_ConstraintError, tx_run, stderr_write, ret in Hcall2.
  cbn [tx set_node_cache] in Hcall2.
  rewrite (exec_MergeSet_existing label k vk cp p2 _ n1 Hu Hok1 Hk Hin1 Hfit1)
    in Hcall2.
  unfold Neo4j.checked in Hcall2.
  destruct (Neo4j.unique_ok _) eqn:Hchk.
  - cbn in Hcall2. injection Hcall2 as <- <-. cbn.
    split; [now rewrite Hid1|].
    exists n1, (Neo4j.on_set p2 [label] n1).
    split; [exact Hin1|]. split.
    { apply in_map_iff. exists n1. now rewrite Hfit1. }
    repeat split; auto.
    + intros key v Hv. simpl. now apply set_props_get.
    + intros key Hv. simpl. now apply set_props_get_other.
  - exfalso. cbn in Hcall2. rewrite Hlo in Hcall2.
    injection Hcall2 as _ <-. cbn in Herr.
    now apply app_one_neq in Herr.
Qed.

(** * Further properties of the code *)

(** ** The normalizer: when it succeeds and what it stores *)

Lemma reformat_ok_iff (k : string) (f : value -> res value) (p : dict) :
  is_ok (reformat k f p) = true <-> rule_ok f (dict_get k p).
Proof.
  unfold reformat, rule_ok. destruct (dict_get k p) as [v|]; [|tauto].
  destruct (f v); simpl; tauto.
Qed.

Lemma reformat_value (k : string) (f : value -> res value) (p p' : dict) :
  reformat k f p = Ok p' ->
  forall v', dict_get k p' = Some v' ->
  exists v, dict_get k p = Some v /\ f v = Ok v'.
Proof.
  unfold reformat. destruct (dict_get k p) as [v|] eqn:E.
  - destruct (f v) as [w|e] eqn:Ef; simpl; [|discriminate].
    intros [= <-] v'. rewrite dict_get_set_eq. intros [= <-]. eauto.
  - intros [= <-] v'. congruence.
Qed.

(** X1. The normalizer succeeds exactly when each rule accepts the value
    under its key: asn converts with [int], and ip, prefix and
    country_code, where present, are strings. *)
Theorem format_properties_succeeds_iff (p : dict) :
  is_ok (format_properties p) = true <->
  rule_ok py_int (dict_get "asn" p) /\
  rule_ok py_lower (dict_get "ip" p) /\
  rule_ok py_lower (dict_get "prefix" p) /\
  rule_ok py_upper (dict_get "country_code" p).
Proof.
  rewrite <- !reformat_ok_iff. unfold format_properties. split.
  - destruct (reformat "asn" py_int p) as [p1|] eqn:E1; simpl; [|discriminate].
    destruct (reformat "ip" py_lower p1) as [p2|] eqn:E2; simpl; [|discriminate].
    destruct (reformat "prefix" py_lower p2) as [p3|] eqn:E3; simpl;
      [|discriminate].
    intros H4. repeat split.
    + apply reformat_ok_iff.
      rewrite <- (reformat_other "asn" "ip" _ _ _ ltac:(discriminate) E1).
      apply reformat_ok_iff. now rewrite E2.
    + apply reformat_ok_iff.
      rewrite <- (reformat_other "asn" "prefix" _ _ _ ltac:(discriminate) E1).
      rewrite <- (reformat_other "ip" "prefix" _ _ _ ltac:(discriminate) E2).
      apply reformat_ok_iff. now rewrite E3.
    + apply reformat_ok_iff.
      rewrite <- (reformat_other "asn" "country_code" _ _ _
                    ltac:(discriminate) E1).
      rewrite <- (reformat_other "ip" "country_code" _ _ _
                    ltac:(discriminate) E2).
      rewrite <- (reformat_other "prefix" "country_code" _ _ _
                    ltac:(discriminate) E3).
      now apply reformat_ok_iff.
  - intros (H1 & H2 & H3 & H4).
    destruct (reformat "asn" py_int p) as [p1|] eqn:E1; [|discriminate]. simpl.
    apply reformat_ok_iff in H2, H3, H4.
    rewrite <- (reformat_other "asn" "ip" _ _ _ ltac:(discriminate) E1) in H2.
    apply reformat_ok_iff in H2.
    destruct (reformat "ip" py_lower p1) as [p2|] eqn:E2; [|discriminate]. simpl.
    rewrite <- (reformat_other "asn" "prefix" _ _ _ ltac:(discriminate) E1),
      <- (reformat_other "ip" "prefix" _ _ _ ltac:(discriminate) E2) in H3.
    apply reformat_ok_iff in H3.
    destruct (reformat "prefix" py_lower p2) as [p3|] eqn:E3; [|discriminate].
    simpl.
    rewrite <- (reformat_other "asn" "country_code" _ _ _
                  ltac:(discriminate) E1),
      <- (reformat_other "ip" "country_code" _ _ _ ltac:(discriminate) E2),
      <- (reformat_other "prefix" "country_code" _ _ _
            ltac:(discriminate) E3) in H4.
    now apply reformat_ok_iff in H4.
Qed.

(** X2. In a normalized map the asn is an integer, ip and prefix are
    strings without upper-case letters and country_code is a string
    without lower-case letters. *)
Theorem format_properties_values (p p' : dict) (v : value) :
  format_properties p = Ok p' ->
  (dict_get "asn" p' = Some v -> exists z, v = VInt z) /\
  (dict_get "ip" p' = Some v -> exists s, v = VStr s /\ lower s = s) /\
  (dict_get "prefix" p' = Some v -> exists s, v = VStr s /\ lower s = s) /\
  (dict_get "country_code" p' = Some v ->
   exists s, v = VStr s /\ upper s = s).
Proof.
  intros H.
  destruct (format_properties_ok _ _ H) as (p1 & p2 & p3 & E1 & E2 & E3 & E4).
  repeat split.
  - rewrite (reformat_other "country_code" "asn" _ _ _ ltac:(discriminate) E4),
      (reformat_other "prefix" "asn" _ _ _ ltac:(discriminate) E3),
      (reformat_other "ip" "asn" _ _ _ ltac:(discriminate) E2).
    intros Hv. destruct (reformat_value _ _ _ _ E1 _ Hv) as (w & _ & Hw).
    destruct w as [z|s|t]; simpl in Hw; try discriminate.
    + injection Hw as <-. eauto.
    + destruct (int_of_string s); [injection Hw as <-; eauto|discriminate].
  - rewrite (reformat_other "country_code" "ip" _ _ _ ltac:(discriminate) E4),
      (reformat_other "prefix" "ip" _ _ _ ltac:(discriminate) E3).
    intros Hv. destruct (reformat_value _ _ _ _ E2 _ Hv) as (w & _ & Hw).
    destruct w as [z|s|t]; simpl in Hw; try discriminate.
    injection Hw as <-. eexists. split; [reflexivity|].
    apply (str_map_idem _ _ lower_ascii_idem).
  - rewrite (reformat_other "country_code" "prefix" _ _ _ ltac:(discriminate) E4).
    intros Hv. destruct (reformat_value _ _ _ _ E3 _ Hv) as (w & _ & Hw).
    destruct w as [z|s|t]; simpl in Hw; try discriminate.
    injection Hw as <-. eexists. split; [reflexivity|].
    apply (str_map_idem _ _ lower_ascii_idem).
  - intros Hv. destruct (reformat_value _ _ _ _ E4 _ Hv) as (w & _ & Hw).
    destruct w as [z|s|t]; simpl in Hw; try discriminate.
    injection Hw as <-. eexists. split; [reflexivity|].
    apply (str_map_idem _ _ upper_ascii_idem).
Qed.

Lemma format_properties_values_witness :
  format_properties [("asn", VStr "65000"); ("prefix", VStr "2001:DB8::/32")]
  = Ok [("asn", VInt 65000); ("prefix", VStr "2001:db8::/32")] /\
  exists s, VStr "2001:db8::/32" = VStr s /\ lower s = s.
Proof.
  split; [reflexivity|].
  apply (proj1 (proj2 (proj2
    (format_properties_values
       [("asn", VStr "65000"); ("prefix", VStr "2001:DB8::/32")]
       [("asn", VInt 65000); ("prefix", VStr "2001:db8::/32")]
       (VStr "2001:db8::/32") eq_refl)))).
  reflexivity.
Defined.

(** ** [int] reads back what [str] writes *)

Lemma pretty_char_digit (d : N) :
  (d < 10)%N ->
  is_digit (pretty_N_char d) = true /\
  digit_val (pretty_N_char d) = Z.of_N d.
Proof.
  intros H.
  assert (Hd : d = 0%N \/ d = 1%N \/ d = 2%N \/ d = 3%N \/ d = 4%N \/
               d = 5%N \/ d = 6%N \/ d = 7%N \/ d = 8%N \/ d = 9%N) by lia.
  decompose [or] Hd; subst; vm_compute; auto.
Qed.

Lemma digit_not_space (c : ascii) : is_digit c = true -> is_space c = false.
Proof.
  destruct c as [[] [] [] [] [] [] [] []]; vm_compute; congruence.
Qed.

Lemma digits_digit (c : ascii) (r : string) (acc : Z) (prev : bool) :
  is_digit c = true ->
  digits (String c r) acc prev = digits r (10 * acc + digit_val c) true.
Proof. intros H. simpl. now rewrite H. Qed.

Lemma N_div_mod_10 (x : N) :
  Z.of_N x = 10 * Z.of_N (x `div` 10) + Z.of_N (x `mod` 10).
Proof.
  pose proof (N.div_mod x 10 ltac:(discriminate)) as H.
  apply (f_equal Z.of_N) in H. rewrite N2Z.inj_add, N2Z.inj_mul in H. exact H.
Qed.

(** The digits [pretty_N_go] writes in front of [s] are read as the
    number they spell. *)
Lemma digits_pretty_N_go (x : N) :
  (0 < x)%N ->
  forall (s : string) (prev : bool),
  exists k, forall acc,
    digits (pretty_N_go x s) acc prev = digits s (acc * k + Z.of_N x) true.
Proof.
  induction (N.lt_wf_0 x) as [x _ IH]. intros Hx s prev.
  rewrite pretty_N_go_step by exact Hx.
  destruct (pretty_char_digit (x `mod` 10))
    as [Hd Hv]; [now apply N.mod_lt|].
  pose proof (N_div_mod_10 x) as Hx10.
  destruct (decide (x `div` 10 = 0)%N) as [Hq|Hq].
  - rewrite Hq in *. rewrite pretty_N_go_0. exists 10. intros acc.
    rewrite (digits_digit _ _ _ _ Hd), Hv. f_equal. lia.
  - destruct (IH (x `div` 10)%N) with
      (s := String (pretty_N_char (x `mod` 10)) s) (prev := prev)
      as [k Hk].
    + apply N.div_lt; lia.
    + now apply N.neq_0_lt_0.
    + exists (k * 10). intros acc. rewrite Hk.
      rewrite (digits_digit _ _ _ _ Hd), Hv. f_equal. lia.
Qed.

Lemma rstrip_cons (c : ascii) (s : string) :
  s <> EmptyString -> rstrip s = s -> rstrip (String c s) = String c s.
Proof. intros Hne Hs. simpl. rewrite Hs. destruct s; congruence. Qed.

Lemma rstrip_pretty_N_go (x : N) (s : string) :
  s <> EmptyString -> rstrip s = s ->
  pretty_N_go x s <> EmptyString /\
  rstrip (pretty_N_go x s) = pretty_N_go x s.
Proof.
  revert s. induction (N.lt_wf_0 x) as [x _ IH]. intros s Hne Hs.
  destruct (decide (0 < x)%N) as [Hx|Hx].
  - rewrite pretty_N_go_step by exact Hx. apply IH.
    + apply N.div_lt; lia.
    + discriminate.
    + now apply rstrip_cons.
  - assert (x = 0%N) as -> by lia. now rewrite pretty_N_go_0.
Qed.

Lemma rstrip_pretty_N_go_nil (x : N) :
  (0 < x)%N ->
  pretty_N_go x EmptyString <> EmptyString /\
  rstrip (pretty_N_go x EmptyString) = pretty_N_go x EmptyString.
Proof.
  intros Hx. rewrite pretty_N_go_step by exact Hx.
  destruct (pretty_char_digit (x `mod` 10)) as [Hd _]; [now apply N.mod_lt|].
  apply rstrip_pretty_N_go; [discriminate|].
  simpl. now rewrite (digit_not_space _ Hd).
Qed.

Lemma pretty_N_go_head (x : N) :
  (0 < x)%N -> forall s,
  exists c r, pretty_N_go x s = String c r /\ is_digit c = true.
Proof.
  induction (N.lt_wf_0 x) as [x _ IH]. intros Hx s.
  rewrite pretty_N_go_step by exact Hx.
  destruct (pretty_char_digit (x `mod` 10)) as [Hd _]; [now apply N.mod_lt|].
  destruct (decide (x `div` 10 = 0)%N) as [Hq|Hq].
  - rewrite Hq, pretty_N_go_0. eauto.
  - apply IH; [apply N.div_lt; lia | now apply N.neq_0_lt_0].
Qed.

Lemma int_of_string_digit_head (c : ascii) (r : string) :
  is_digit c = true -> rstrip (String c r) = String c r ->
  int_of_string (String c r) = digits (String c r) 0 false.
Proof.
  intros Hd Hr. unfold int_of_string.
  cbn [lstrip]. rewrite (digit_not_space _ Hd), Hr.
  destruct c as [[] [] [] [] [] [] [] []]; try discriminate Hd; reflexivity.
Qed.

Lemma int_of_string_pretty_pos (x : N) :
  (0 < x)%N -> int_of_string (pretty_N_go x EmptyString) = Some (Z.of_N x).
Proof.
  intros Hx.
  destruct (pretty_N_go_head x Hx EmptyString) as (c & r & Hcr & Hd).
  destruct (rstrip_pretty_N_go_nil x Hx) as [_ Hr].
  destruct (digits_pretty_N_go x Hx EmptyString false) as [k Hk].
  rewrite Hcr in Hr |- *. rewrite (int_of_string_digit_head _ _ Hd Hr).
  rewrite <- Hcr, Hk. simpl. reflexivity.
Qed.

Lemma int_of_string_pretty (z : Z) : int_of_string (pretty z) = Some z.
Proof.
  destruct z as [|p|p].
  - reflexivity.
  - change (pretty (Z.pos p)) with (pretty_N_go (N.pos p) EmptyString).
    now rewrite int_of_string_pretty_pos.
  - change (pretty (Z.neg p))
      with (String "-"%char (pretty_N_go (N.pos p) EmptyString)).
    destruct (rstrip_pretty_N_go_nil (N.pos p) ltac:(lia)) as [Hne Hr].
    destruct (digits_pretty_N_go (N.pos p) ltac:(lia) EmptyString false)
      as [k Hk].
    unfold int_of_string. cbn [lstrip]. change (is_space "-"%char) with false.
    cbv iota. rewrite (rstrip_cons _ _ Hne Hr). rewrite Hk. reflexivity.
Qed.

Lemma dict_set_set (k : string) (v v' : value) (d : dict) :
  dict_set k v' (dict_set k v d) = dict_set k v' d.
Proof.
  induction d as [|[k0 v0] d IH]; simpl.
  - now rewrite String.eqb_refl.
  - destruct (String.eqb k k0) eqn:E; simpl; rewrite E; [reflexivity|].
    now rewrite IH.
Qed.

(** X3. [int] reads back the text [str] writes for an integer, so a map
    whose asn is the decimal text of [z] normalizes to the same map as
    one whose asn is [z] itself. *)
Theorem asn_text_normalizes_like_integer (z : Z) (p : dict) :
  py_int (VStr (py_str (VInt z))) = Ok (VInt z) /\
  format_properties (dict_set "asn" (VStr (py_str (VInt z))) p)
  = format_properties (dict_set "asn" (VInt z) p).
Proof.
  assert (Hint : py_int (VStr (py_str (VInt z))) = Ok (VInt z)).
  { simpl. now rewrite int_of_string_pretty. }
  split; [exact Hint|].
  unfold format_properties, reformat. rewrite !dict_get_set_eq.
  rewrite Hint. simpl. now rewrite !dict_set_set.
Qed.

(** ** Cache keys *)

Lemma frozendict_lookup (p : dict) (k : string) :
  frozendict p !! k = dict_get k p.
Proof.
  unfold frozendict. induction p as [|[k0 v0] p IH]; simpl.
  - apply lookup_empty.
  - rewrite lookup_insert. destruct (String.eqb k k0) eqn:E.
    + apply String.eqb_eq in E. subst. now rewrite decide_True.
    + apply String.eqb_neq in E. rewrite decide_False by congruence. exact IH.
Qed.

(** X4. [lru_cache] keys a call of [get_node] as it is written.  Two
    calls written with their three arguments in position share a cache
    key exactly when they have the same [type], the same [create] and
    property maps that hold the same value under every key, whatever the
    order of their items; [key_of] is the key of such a call.  The same
    arguments written another way, with [create] left to its default or
    passed by keyword, bind to the same parameters and are other keys. *)
Theorem key_of_eq_iff (t1 t2 : label_arg) (p1 p2 : dict) (c1 c2 : bool) :
  (call_key (positional t1 p1 c1) = call_key (positional t2 p2 c2) <->
   key_of t1 p1 c1 = key_of t2 p2 c2) /\
  (key_of t1 p1 c1 = key_of t2 p2 c2 <->
   t1 = t2 /\ c1 = c2 /\ forall k, dict_get k p1 = dict_get k p2) /\
  (let by_default : written_call := ([ALabel t1; ADict p1], []) in
   let by_keyword : written_call :=
     ([ALabel t1; ADict p1], [("create", ABool false)]) in
   bind_args by_default = bind_args (positional t1 p1 false) /\
   bind_args by_keyword = bind_args (positional t1 p1 false) /\
   bind_args (positional t1 p1 false)
   = Ok (ALabel t1, ADict p1, ABool false) /\
   call_key by_default <> call_key (positional t1 p1 false) /\
   call_key by_keyword <> call_key (positional t1 p1 false) /\
   call_key by_default <> call_key by_keyword).
Proof.
  split; [|split].
  - unfold call_key, positional, key_of. cbn. split.
    + intros H. injection H as -> -> ->. reflexivity.
    + intros H. injection H as -> -> ->. reflexivity.
  - unfold key_of. split.
    + intros H. injection H as -> Hf ->. repeat split.
      intros k. now rewrite <- !frozendict_lookup, Hf.
    + intros (-> & -> & H). f_equal. f_equal. apply map_eq. intros k.
      now rewrite !frozendict_lookup.
  - cbn. repeat split; discriminate.
Qed.

(** ** The size of the caches *)

Section LRUBounds.
Context {K V : Type} `{EqDecision K}.

Lemma lru_remove_length (k : K) (c : lru K V) :
  (length (lru_remove k c) <= length c)%nat.
Proof.
  induction c as [|[k' v] c IH]; simpl; [lia|].
  destruct (decide (k = k')); simpl; lia.
Qed.

Lemma lru_remove_found_length (k : K) (c : lru K V) (v : V) :
  lru_find k c = Some v -> (S (length (lru_remove k c)) <= length c)%nat.
Proof.
  induction c as [|[k' v'] c IH]; simpl; [discriminate|].
  destruct (decide (k = k')).
  - intros _. pose proof (lru_remove_length k c). lia.
  - intros H. simpl. specialize (IH H). lia.
Qed.

Lemma lru_touch_length (k : K) (v : V) (c : lru K V) :
  lru_find k c = Some v -> (length (lru_touch k v c) <= length c)%nat.
Proof. intros H. unfold lru_touch. simpl. exact (lru_remove_found_length k c v H). Qed.

Lemma removelast_length {A : Type} (l : list A) :
  length (removelast l) = (length l - 1)%nat.
Proof.
  induction l as [|a [|b l] IH]; simpl in *; try lia.
Qed.

Lemma lru_add_length (m : Z) (k : K) (v : V) (c : lru K V) :
  0 < m -> Z.of_nat (length c) <= m ->
  Z.of_nat (length (lru_add m k v c)) <= m.
Proof.
  intros Hm Hc. unfold lru_add. destruct (lru_find k c); [exact Hc|].
  destruct (m <=? Z.of_nat (length c)) eqn:E; simpl length.
  - rewrite removelast_length. apply Z.leb_le in E. lia.
  - apply Z.leb_gt in E. lia.
Qed.

Lemma lru_find_remove_other (k k' : K) (c : lru K V) :
  k <> k' -> lru_find k (lru_remove k' c) = lru_find k c.
Proof.
  intros Hne. induction c as [|[k0 v0] c IH]; simpl; [reflexivity|].
  destruct (decide (k' = k0)) as [->|Hk0].
  - rewrite decide_False by exact Hne. exact IH.
  - simpl. destruct (decide (k = k0)); [reflexivity|exact IH].
Qed.

End LRUBounds.

Section CallFacts.
Context {G : Type}.
Variable run : stmt -> G -> res (list Z) * G.

Lemma lru_cached_cases {Key : Type} `{EqDecision Key}
    (cache : iyp G -> lru Key (option Z))
    (set_cache : lru Key (option Z) -> iyp G -> iyp G)
    (key : Key) (f : M G (option Z)) (s : iyp G) :
  (exists v, lru_find key (cache s) = Some v /\
     lru_cached cache set_cache key f s
     = (Ok v, set_cache (lru_touch key v (cache s)) s)) \/
  (lru_find key (cache s) = None /\
   ((exists v s', f s = (Ok v, s') /\
       lru_cached cache set_cache key f s
       = (Ok v, set_cache (lru_add maxsize key v (cache s')) s')) \/
    (exists e s', f s = (Raise e, s') /\
       lru_cached cache set_cache key f s = (Raise e, s')))).
Proof.
  unfold lru_cached. destruct (lru_find key (cache s)) as [v|]; [eauto|].
  right. split; [reflexivity|].
  destruct (f s) as [[v|e] s']; eauto 6.
Qed.

(** What one [get_node] call does to the instance. *)
Lemma get_node_cases (type : label_arg) (prop : dict) (create : bool)
    (s : iyp G) :
  get_node run type prop create s = (Raise TypeError, s) \/
  (exists v, lru_find (key_of type prop create) (node_cache s) = Some v /\
     get_node run type prop create s
     = (Ok v, set_node_cache
                (lru_touch (key_of type prop create) v (node_cache s)) s)) \/
  (lru_find (key_of type prop create) (node_cache s) = None /\
   ((exists v s', get_node_body run type prop create s = (Ok v, s') /\
       get_node run type prop create s
       = (Ok v, set_node_cache
                  (lru_add maxsize (key_of type prop create) v
                     (node_cache s)) s')) \/
    (exists e s', get_node_body run type prop create s = (Raise e, s') /\
       get_node run type prop create s = (Raise e, s')))).
Proof.
  unfold get_node. destruct (hashable type); [|now left]. right.
  destruct (lru_cached_cases node_cache set_node_cache
              (key_of type prop create) (get_node_body run type prop create) s)
    as [?|[Hm [(v & s' & Hb & Hc)|?]]]; [now left| |right; split; auto].
  right. split; [exact Hm|]. left. exists v, s'. split; [exact Hb|].
  rewrite Hc.
  pose proof (framed_get_node_body run type prop create s) as (Hn & _).
  rewrite Hb in Hn. simpl in Hn. now rewrite Hn.
Qed.

Lemma get_node_extid_cases (id_type : string) (id : value) (s : iyp G) :
  (exists v, lru_find (extid_key_of id_type id) (extid_cache s) = Some v /\
     get_node_extid run id_type id s
     = (Ok v, set_extid_cache
                (lru_touch (extid_key_of id_type id) v (extid_cache s)) s)) \/
  (lru_find (extid_key_of id_type id) (extid_cache s) = None /\
   ((exists v s', get_node_extid_body run id_type id s = (Ok v, s') /\
       get_node_extid run id_type id s
       = (Ok v, set_extid_cache
                  (lru_add maxsize (extid_key_of id_type id) v
                     (extid_cache s)) s')) \/
    (exists e s', get_node_extid_body run id_type id s = (Raise e, s') /\
       get_node_extid run id_type id s = (Raise e, s')))).
Proof.
  unfold get_node_extid.
  destruct (lru_cached_cases extid_cache set_extid_cache
              (extid_key_of id_type id)
              (get_node_extid_body run id_type id) s)
    as [?|[Hm [(v & s' & Hb & Hc)|?]]]; [now left| |right; split; auto].
  right. split; [exact Hm|]. left. exists v, s'. split; [exact Hb|].
  rewrite Hc.
  pose proof (framed_get_node_extid_body run id_type id s) as (_ & He & _).
  rewrite Hb in He. simpl in He. now rewrite He.
Qed.

Lemma framed_add_links (src_node : Z) (links : list link) :
  framed (add_links run src_node links).
Proof.
  unfold add_links.
  apply framed_bind; [apply framed_lift|]. intros merges.
  apply framed_bind; [apply framed_tx_run|]. intros _. apply framed_ret.
Qed.

(** A call keeps the caches within [maxsize] and the committed store as
    it is. *)
Lemma do_call_bounded (c : call) (s : iyp G) :
  bounded s -> bounded (do_call run c s).
Proof.
  intros [Hn He]. destruct c as [type prop create|id_type id|src links]; simpl.
  - destruct (get_node_cases type prop create s)
      as [->|[(v & Hf & ->)|[Hm [(v & s' & Hb & ->)|(e & s' & Hb & ->)]]]];
      simpl.
    + now split.
    + split; [|exact He]. simpl.
      pose proof (lru_remove_found_length _ _ _ Hf). lia.
    + pose proof (framed_get_node_body run type prop create s) as (_ & Hx & _).
      rewrite Hb in Hx. simpl in Hx. split; simpl; [|now rewrite Hx].
      now apply lru_add_length.
    + pose proof (framed_get_node_body run type prop create s) as (Hc & Hx & _).
      rewrite Hb in Hc, Hx. simpl in Hc, Hx. split; congruence.
  - destruct (get_node_extid_cases id_type id s)
      as [(v & Hf & ->)|[Hm [(v & s' & Hb & ->)|(e & s' & Hb & ->)]]];
      simpl.
    + split; [exact Hn|]. simpl.
      pose proof (lru_remove_found_length _ _ _ Hf). lia.
    + pose proof (framed_get_node_extid_body run id_type id s) as (Hc & _).
      rewrite Hb in Hc. simpl in Hc. split; simpl; [now rewrite Hc|].
      now apply lru_add_length.
    + pose proof (framed_get_node_extid_body run id_type id s)
        as (Hc & Hx & _).
      rewrite Hb in Hc, Hx. simpl in Hc, Hx. split; congruence.
  - pose proof (framed_add_links src links s) as (Hc & Hx & _).
    split; congruence.
Qed.

Lemma do_call_committed (c : call) (s : iyp G) :
  committed (do_call run c s) = committed s.
Proof.
  destruct c as [type prop create|id_type id|src links]; simpl.
  - destruct (get_node_cases type prop create s)
      as [->|[(v & Hf & ->)|[Hm [(v & s' & Hb & ->)|(e & s' & Hb & ->)]]]];
      simpl; try reflexivity;
      pose proof (framed_get_node_body run type prop create s) as (_ & _ & Hx);
      rewrite Hb in Hx; exact Hx.
  - destruct (get_node_extid_cases id_type id s)
      as [(v & Hf & ->)|[Hm [(v & s' & Hb & ->)|(e & s' & Hb & ->)]]];
      simpl; try reflexivity;
      pose proof (framed_get_node_extid_body run id_type id s)
        as (_ & _ & Hx);
      rewrite Hb in Hx; exact Hx.
  - now pose proof (framed_add_links src links s) as (_ & _ & Hx).
Qed.

End CallFacts.

(** X5. The caches stay within [maxsize] entries each: if they are within
    it before a sequence of resolver and linker calls, they are within it
    after. *)
Theorem do_calls_bounded {G : Type} (run : stmt -> G -> res (list Z) * G)
    (cs : list call) (s : iyp G) :
  bounded s -> bounded (do_calls run cs s).
Proof.
  unfold do_calls. revert s. induction cs as [|c cs IH]; intros s Hs; simpl.
  - exact Hs.
  - apply IH. now apply do_call_bounded.
Qed.

Lemma do_calls_bounded_witness :
  bounded (do_calls Neo4j.exec
             [CallGetNode (LStr "AS") [("asn", VInt 65000)] true;
              CallGetNodeExtid "PEERINGDB_ORG_ID" (VInt 7);
              CallGetNode (LStr "AS") [("asn", VInt 65000)] true]
             (Neo4j.connect Neo4j.empty)).
Proof.
  apply (do_calls_bounded Neo4j.exec). split; vm_compute; discriminate.
Defined.

(** X6. No resolver or linker call changes the committed store: after any
    sequence of them a rollback puts the transaction back on the store of
    the last commit, and what was committed before the sequence is what
    the rollback gives. *)
Theorem rollback_undoes_calls {G : Type} (run : stmt -> G -> res (list Z) * G)
    (cs : list call) (s : iyp G) :
  committed (do_calls run cs s) = committed s /\
  tx (rollback (do_calls run cs s)).2 = committed s /\
  tx (rollback (do_calls run cs (commit s).2)).2 = tx s.
Proof.
  assert (H : forall s0 : iyp G, committed (do_calls run cs s0) = committed s0).
  { unfold do_calls. induction cs as [|c cs IH]; intros s0; simpl;
      [reflexivity|]. rewrite IH. apply do_call_committed. }
  split; [apply H|]. split; simpl; now rewrite H.
Qed.

(** ** What stays cached *)

Section Staleness.
Context {G : Type}.
Variable run : stmt -> G -> res (list Z) * G.

(** A call that returns leaves its entry at the front of the cache. *)
Lemma get_node_front (type : label_arg) (prop : dict) (create : bool)
    (s s' : iyp G) (v : option Z) :
  get_node run type prop create s = (Ok v, s') ->
  exists rest, node_cache s' = (key_of type prop create, v) :: rest.
Proof.
  destruct (get_node_cases run type prop create s)
    as [->|[(v0 & Hf & ->)|[Hm [(v0 & s0 & Hb & ->)|(e & s0 & Hb & ->)]]]];
    try discriminate.
  - intros [= -> <-]. simpl. unfold lru_touch. eauto.
  - intros [= -> <-]. simpl. unfold lru_add. rewrite Hm. eauto.
Qed.

Lemma lru_find_front_after_add {K V : Type} `{EqDecision K}
    (k k' : K) (v v' : V) (rest : lru K V) :
  k <> k' ->
  lru_find k (lru_add maxsize k' v' ((k, v) :: rest)) = Some v.
Proof.
  intros Hne. unfold lru_add.
  destruct (lru_find k' ((k, v) :: rest)).
  - simpl. now rewrite decide_True.
  - cbn [lru_find]. rewrite decide_False by exact Hne.
    destruct (maxsize <=? Z.of_nat (length ((k, v) :: rest))) eqn:E.
    + destruct rest as [|e rest]; [vm_compute in E; discriminate|].
      simpl. now rewrite decide_True.
    + simpl. now rewrite decide_True.
Qed.

Lemma get_node_extid_cached (id_type : string) (id : value)
    (s s' : iyp G) (v : option Z) :
  get_node_extid run id_type id s = (Ok v, s') ->
  lru_find (extid_key_of id_type id) (extid_cache s') = Some v /\
  (queries s' = queries s \/
   queries s' = (queries s ++ [MatchExtId id_type id])%list).
Proof.
  destruct (get_node_extid_cases run id_type id s)
    as [(v0 & Hf & ->)|[Hm [(v0 & s0 & Hb & ->)|(e & s0 & Hb & ->)]]];
    try discriminate.
  - intros [= -> <-]. simpl. split; [apply lru_find_touch|now left].
  - intros [= -> <-]. simpl. split.
    + unfold lru_add. rewrite Hm. simpl. now rewrite decide_True.
    + right. unfold get_node_extid_body, bind, tx_run, ret in Hb.
      destruct (run (MatchExtId id_type id) (tx s)) as [[rows|e] g];
        [|discriminate].
      now injection Hb as _ <-.
Qed.

End Staleness.

(** X7. A non-creating lookup is not refreshed by the creation of what it
    looked up: once [get_node] with create=false has returned [v] (for a
    node that does not exist, [None]), a [get_node] of the same
    descriptor with create=true, whatever it does, leaves that entry in
    place, and the next create=false call still returns [v] from the
    cache without asking the store. *)
Theorem lookup_not_refreshed_by_create {G : Type}
    (run : stmt -> G -> res (list Z) * G)
    (type : label_arg) (prop : dict) (s s1 s2 : iyp G) (v : option Z)
    (r : res (option Z)) :
  get_node run type prop false s = (Ok v, s1) ->
  get_node run type prop true s1 = (r, s2) ->
  exists s3,
    get_node run type prop false s2 = (Ok v, s3) /\ silent s2 s3.
Proof.
  intros H1 H2.
  assert (Hh : hashable type = true).
  { unfold get_node in H1.
    destruct (hashable type); [reflexivity|discriminate]. }
  assert (Hne : key_of type prop false <> key_of type prop true).
  { unfold key_of. intros H. discriminate. }
  destruct (get_node_front run _ _ _ _ _ _ H1) as [rest Hc1].
  assert (Hf : lru_find (key_of type prop false) (node_cache s2) = Some v).
  { destruct (get_node_cases run type prop true s1)
      as [E|[(v0 & Hf0 & E)|[Hm [(v0 & s0 & Hb & E)|(e & s0 & Hb & E)]]]];
      rewrite E in H2; injection H2 as <- <-.
    - rewrite Hc1. simpl. now rewrite decide_True.
    - simpl. unfold lru_touch. cbn [lru_find].
      rewrite decide_False by exact Hne.
      rewrite lru_find_remove_other by exact Hne.
      rewrite Hc1. simpl. now rewrite decide_True.
    - simpl. rewrite Hc1. now apply lru_find_front_after_add.
    - pose proof (framed_get_node_body run type prop true s1) as (Hn & _).
      rewrite Hb in Hn. simpl in Hn. rewrite Hn, Hc1. simpl.
      now rewrite decide_True. }
  rewrite (get_node_hit run _ _ _ _ _ Hh Hf).
  eexists. split; [reflexivity|]. apply silent_set_node_cache.
Qed.

Lemma lookup_not_refreshed_by_create_witness :
  let s0 := Neo4j.connect Neo4j.empty in
  let r1 := get_node Neo4j.exec (LStr "AS") [("asn", VInt 65000)] false s0 in
  let r2 := get_node Neo4j.exec (LStr "AS") [("asn", VInt 65000)] true r1.2 in
  r2.1 = Ok (Some 0) /\
  exists s3,
    get_node Neo4j.exec (LStr "AS") [("asn", VInt 65000)] false r2.2
    = (Ok None, s3) /\ silent r2.2 s3.
Proof.
  intros s0 r1 r2. split; [vm_compute; reflexivity|].
  apply (lookup_not_refreshed_by_create Neo4j.exec (LStr "AS")
           [("asn", VInt 65000)] s0 r1.2 r2.2 None r2.1).
  - vm_compute. reflexivity.
  - vm_compute. reflexivity.
Defined.

(** X8. [get_node_extid] is a cached read: a call that returns has sent
    at most the one match on the external id, its result ([None]
    included) is cached, and the same call again returns it from the
    cache without asking the store. *)
Theorem get_node_extid_cached_read {G : Type}
    (run : stmt -> G -> res (list Z) * G)
    (id_type : string) (id : value) (s s1 : iyp G) (v : option Z) :
  get_node_extid run id_type id s = (Ok v, s1) ->
  (queries s1 = queries s \/
   queries s1 = (queries s ++ [MatchExtId id_type id])%list) /\
  exists s2,
    get_node_extid run id_type id s1 = (Ok v, s2) /\ silent s1 s2.
Proof.
  intros H. destruct (get_node_extid_cached run _ _ _ _ _ H) as [Hf Hq].
  split; [exact Hq|].
  rewrite (get_node_extid_hit run _ _ _ _ Hf).
  eexists. split; [reflexivity|]. apply silent_set_extid_cache.
Qed.

Lemma get_node_extid_cached_read_witness :
  let s0 := Neo4j.connect Neo4j.empty in
  let r1 := get_node_extid Neo4j.exec "PEERINGDB_ORG_ID" (VInt 7) s0 in
  (queries r1.2 = queries s0 \/
   queries r1.2
   = (queries s0 ++ [MatchExtId "PEERINGDB_ORG_ID" (VInt 7)])%list) /\
  exists s2,
    get_node_extid Neo4j.exec "PEERINGDB_ORG_ID" (VInt 7) r1.2
    = (Ok None, s2) /\ silent r1.2 s2.
Proof.
  intros s0 r1.
  apply (get_node_extid_cached_read Neo4j.exec "PEERINGDB_ORG_ID" (VInt 7)
           s0 r1.2 None).
  vm_compute. reflexivity.
Defined.

(** ** Errors of [get_node] *)

Lemma dict_get_keys (k : string) (d : dict) :
  dict_get k d = None <-> ~ In k (dict_keys d).
Proof.
  split; [|apply dict_get_None].
  induction d as [|[k' v'] d IH]; simpl; [tauto|].
  destruct (String.eqb k k') eqn:E; [discriminate|].
  apply String.eqb_neq in E. intros H [Hk|Hk]; [congruence|now apply IH].
Qed.

Lemma format_properties_absent (p p' : dict) (k : string) :
  format_properties p = Ok p' ->
  dict_get k p' = None <-> dict_get k p = None.
Proof.
  intros H. rewrite !dict_get_keys. now rewrite (format_properties_keys _ _ H).
Qed.

Lemma constraint_props_missing (keys : list string) (p : dict) (c : string) :
  In c keys -> dict_get c p = None ->
  exists c', constraint_props keys p = Raise (KeyError c') /\
             In c' keys /\ dict_get c' p = None.
Proof.
  induction keys as [|c0 keys IH]; simpl; [tauto|].
  intros Hin Hc. unfold dict_item.
  destruct (dict_get c0 p) as [v0|] eqn:E0; simpl.
  - destruct Hin as [->|Hin]; [congruence|].
    destruct (IH Hin Hc) as (c' & -> & Hc' & Hn). simpl. eauto.
  - eauto.
Qed.

(** X9. A creating resolve of a constrained label whose descriptor lacks
    one of the label's constrained properties raises [KeyError] for the
    first one missing, before anything is sent to the store or cached:
    the instance is left as it was. *)
Theorem get_node_missing_constraint_key {G : Type}
    (run : stmt -> G -> res (list Z) * G)
    (label c : string) (prop : dict) (s : iyp G) :
  In label NODE_CONSTRAINTS_LABELS ->
  lru_find (key_of (LStr label) prop true) (node_cache s) = None ->
  is_ok (format_properties prop) = true ->
  In c (constraint_keys label) -> dict_in c prop = false ->
  exists c',
    In c' (constraint_keys label) /\ dict_in c' prop = false /\
    get_node run (LStr label) prop true s = (Raise (KeyError c'), s).
Proof.
  intros Hl Hmiss Hok Hc Hin.
  destruct (format_properties prop) as [p|] eqn:Hp; [|discriminate].
  assert (Hcp : dict_get c p = None).
  { apply (format_properties_absent _ _ c Hp). unfold dict_in in Hin.
    destruct (dict_get c prop); [discriminate|reflexivity]. }
  destruct (constraint_props_missing _ _ _ Hc Hcp) as (c' & Hraise & Hc' & Hn).
  exists c'. split; [exact Hc'|]. split.
  - apply (format_properties_absent _ _ c' Hp) in Hn. unfold dict_in.
    now rewrite Hn.
  - rewrite (get_node_miss run (LStr label) prop true s eq_refl Hmiss).
    unfold get_node_body, bind, lift. rewrite Hp.
    now rewrite (has_constraints_single _ Hl), Hraise.
Qed.

Lemma get_node_missing_constraint_key_witness :
  exists c',
    In c' (constraint_keys "PREFIX") /\
    dict_in c' [("prefix", VStr "10.0.0.0/8")] = false /\
    get_node Neo4j.exec (LStr "PREFIX") [("prefix", VStr "10.0.0.0/8")] true
      (Neo4j.connect Neo4j.empty)
    = (Raise (KeyError c'), Neo4j.connect Neo4j.empty).
Proof.
  apply (get_node_missing_constraint_key Neo4j.exec "PREFIX" "af").
  - vm_compute. tauto.
  - reflexivity.
  - reflexivity.
  - vm_compute. tauto.
  - reflexivity.
Defined.

(** X10. When the properties cannot be normalized, a call that is not
    answered from the cache raises the normalizer's exception with the
    instance as it was: nothing is sent to the store and nothing is
    cached. *)
Theorem get_node_normalization_error {G : Type}
    (run : stmt -> G -> res (list Z) * G)
    (label : string) (prop : dict) (create : bool) (s : iyp G) (e : exn) :
  lru_find (key_of (LStr label) prop create) (node_cache s) = None ->
  format_properties prop = Raise e ->
  get_node run (LStr label) prop create s = (Raise e, s).
Proof.
  intros Hmiss Hp.
  rewrite (get_node_miss run (LStr label) prop create s eq_refl Hmiss).
  unfold get_node_body, bind, lift. now rewrite Hp.
Qed.

Lemma get_node_normalization_error_witness :
  get_node Neo4j.exec (LStr "AS") [("asn", VStr "AS65000")] true
    (Neo4j.connect Neo4j.empty)
  = (Raise ValueError, Neo4j.connect Neo4j.empty).
Proof.
  apply (get_node_normalization_error Neo4j.exec "AS"
           [("asn", VStr "AS65000")] true (Neo4j.connect Neo4j.empty)
           ValueError); reflexivity.
Defined.

(** X11. Only the constrained merge is guarded, and only against
    [ConstraintError].  Any other exception of that merge, and any
    exception of the unconstrained merge or of the non-creating match,
    reaches the caller: one statement was sent, no warning written and
    nothing cached. *)
Theorem get_node_store_error_propagates {G : Type}
    (run : stmt -> G -> res (list Z) * G)
    (label : string) (prop p : dict) (s : iyp G) (g1 : G) (e : exn) :
  format_properties prop = Ok p ->
  (forall cp,
     In label NODE_CONSTRAINTS_LABELS ->
     lru_find (key_of (LStr label) prop true) (node_cache s) = None ->
     constraint_props (constraint_keys label) p = Ok cp ->
     run (MergeSet label cp p [label]) (tx s) = (Raise e, g1) ->
     e <> ConstraintError ->
     exists s',
       get_node run (LStr label) prop true s = (Raise e, s') /\
       queries s' = (queries s ++ [MergeSet label cp p [label]])%list /\
       stderr s' = stderr s /\ node_cache s' = node_cache s) /\
  (~ In label NODE_CONSTRAINTS_LABELS ->
   lru_find (key_of (LStr label) prop true) (node_cache s) = None ->
   run (Merge label p) (tx s) = (Raise e, g1) ->
   exists s',
     get_node run (LStr label) prop true s = (Raise e, s') /\
     queries s' = (queries s ++ [Merge label p])%list /\
     stderr s' = stderr s /\ node_cache s' = node_cache s) /\
  (lru_find (key_of (LStr label) prop false) (node_cache s) = None ->
   run (Match label p) (tx s) = (Raise e, g1) ->
   exists s',
     get_node run (LStr label) prop false s = (Raise e, s') /\
     queries s' = (queries s ++ [Match label p])%list /\
     stderr s' = stderr s /\ node_cache s' = node_cache s).
Proof.
  intros Hp. split; [|split].
  - intros cp Hl Hmiss Hcp Hrun Hne.
    rewrite (get_node_miss run (LStr label) prop true s eq_refl Hmiss).
    unfold get_node_body, bind, lift. rewrite Hp.
    rewrite (has_constraints_single _ Hl), Hcp.
    unfold try_except_ConstraintError, tx_run. rewrite Hrun.
    destruct e; try congruence; eexists; (split; [reflexivity|]);
      now repeat split.
  - intros Hl Hmiss Hrun.
    rewrite (get_node_miss run (LStr label) prop true s eq_refl Hmiss).
    unfold get_node_body, bind, lift. rewrite Hp.
    assert (Hf : List.filter (fun l => existsb (String.eqb l) [label])
                   NODE_CONSTRAINTS_LABELS = []).
    { destruct (List.filter _ NODE_CONSTRAINTS_LABELS) as [|l0 rest] eqn:E;
        [reflexivity|].
      assert (Hin : In l0 (List.filter
                      (fun l => existsb (String.eqb l) [label])
                      NODE_CONSTRAINTS_LABELS)) by (rewrite E; now left).
      apply filter_In in Hin as [Hin Hex]. simpl in Hex.
      rewrite orb_false_r in Hex. apply String.eqb_eq in Hex. subst.
      contradiction. }
    rewrite Hf. unfold tx_run. rewrite Hrun.
    eexists. split; [reflexivity|]. now repeat split.
  - intros Hmiss Hrun.
    rewrite (get_node_miss run (LStr label) prop false s eq_refl Hmiss).
    unfold get_node_body, bind, lift. rewrite Hp.
    unfold tx_run. rewrite Hrun.
    eexists. split; [reflexivity|]. now repeat split.
Qed.

Lemma get_node_store_error_propagates_witness :
  let s1 := (get_node Neo4j.exec (LStr "AS") [("asn", VInt 65000)] true
               (Neo4j.connect Neo4j.empty)).2 in
  exists s',
    get_node Neo4j.exec (LStr "AS:FOO") [("asn", VInt 65000)] true s1
    = (Raise ConstraintError, s') /\
    queries s'
    = (queries s1 ++ [Merge "AS:FOO" [("asn", VInt 65000)]])%list /\
    stderr s' = stderr s1 /\ node_cache s' = node_cache s1.
Proof.
  intros s1.
  apply (proj1 (proj2 (get_node_store_error_propagates Neo4j.exec "AS:FOO"
           [("asn", VInt 65000)] [("asn", VInt 65000)] s1 (tx s1)
           ConstraintError eq_refl))).
  - vm_compute. intros H. decompose [or] H; try discriminate; contradiction.
  - vm_compute. reflexivity.
  - vm_compute. reflexivity.
Defined.

(** ** Statements of [get_node] *)

Section Traces.
Context {G : Type}.
Variable run : stmt -> G -> res (list Z) * G.

(** The body sends one statement, or two when the handler ran; the
    warning tells which. *)
Lemma get_node_body_trace (type : label_arg) (prop : dict) (create : bool)
    (s : iyp G) :
  let s' := (get_node_body run type prop create s).2 in
  (queries s' = queries s /\ stderr s' = stderr s) \/
  (exists q, queries s' = (queries s ++ [q])%list /\ stderr s' = stderr s) \/
  (exists q1 q2 w,
     queries s' = (queries s ++ [q1; q2])%list /\
     stderr s' = (stderr s ++ [w])%list).
Proof.
  intros s'. subst s'. unfold get_node_body, bind, lift, ret.
  destruct (format_properties prop) as [p|e]; [|now left].
  destruct create.
  - destruct (List.filter _ NODE_CONSTRAINTS_LABELS) as [|label rest].
    + right. left. unfold tx_run.
      destruct (run _ (tx s)) as [[rows|e] g]; simpl; eauto.
    + destruct (constraint_props (constraint_keys label) p) as [cp|e];
        [|now left].
      unfold try_except_ConstraintError, tx_run, stderr_write.
      destruct (run (MergeSet _ _ _ _) (tx s)) as [[rows|e] g1]; simpl.
      * right. left. eauto.
      * destruct e; simpl; try solve [right; left; eauto].
        right. right.
        destruct (run (Match label cp) g1) as [[rows|e] g2]; simpl;
          rewrite <- app_assoc; eauto.
  - right. left. unfold tx_run.
    destruct (run _ (tx s)) as [[rows|e] g]; simpl; eauto.
Qed.

End Traces.

(** X12. Whatever its arguments and outcome, one [get_node] call sends at
    most two statements to the store, and two only when it wrote the
    warning of the constraint-violation handler; a call that wrote no
    warning sent at most one. *)
Theorem get_node_at_most_two_statements {G : Type}
    (run : stmt -> G -> res (list Z) * G)
    (type : label_arg) (prop : dict) (create : bool) (s : iyp G) :
  let s' := (get_node run type prop create s).2 in
  exists qs,
    queries s' = (queries s ++ qs)%list /\
    ((length qs <= 1)%nat /\ stderr s' = stderr s \/
     length qs = 2%nat /\ exists w, stderr s' = (stderr s ++ [w])%list).
Proof.
  intros s'. subst s'.
  pose proof (get_node_body_trace run type prop create s) as Hb.
  cbv zeta in Hb.
  destruct (get_node_cases run type prop create s)
    as [->|[(v & Hf & ->)|[Hm [(v & s0 & E & ->)|(e & s0 & E & ->)]]]];
    simpl.
  - exists []. rewrite app_nil_r. split; [reflexivity|]. left.
    split; [simpl; lia|reflexivity].
  - exists []. rewrite app_nil_r. split; [reflexivity|]. left.
    split; [simpl; lia|reflexivity].
  - rewrite E in Hb. simpl in Hb.
    destruct Hb as [[Hq He]|[(q & Hq & He)|(q1 & q2 & w & Hq & He)]].
    + exists []. rewrite app_nil_r. split; [exact Hq|]. left.
      split; [simpl; lia|exact He].
    + exists [q]. split; [exact Hq|]. left. split; [simpl; lia|exact He].
    + exists [q1; q2]. split; [exact Hq|]. right. eauto.
  - rewrite E in Hb. simpl in Hb.
    destruct Hb as [[Hq He]|[(q & Hq & He)|(q1 & q2 & w & Hq & He)]].
    + exists []. rewrite app_nil_r. split; [exact Hq|]. left.
      split; [simpl; lia|exact He].
    + exists [q]. split; [exact Hq|]. left. split; [simpl; lia|exact He].
    + exists [q1; q2]. split; [exact Hq|]. right. eauto.
Qed.

Lemma no_constraints_single (label : string) :
  ~ In label NODE_CONSTRAINTS_LABELS ->
  List.filter (fun l => existsb (String.eqb l) [label]) NODE_CONSTRAINTS_LABELS
  = [].
Proof.
  intros Hl.
  destruct (List.filter _ NODE_CONSTRAINTS_LABELS) as [|l0 rest] eqn:E;
    [reflexivity|].
  assert (Hin : In l0 (List.filter (fun l => existsb (String.eqb l) [label])
                         NODE_CONSTRAINTS_LABELS)) by (rewrite E; now left).
  apply filter_In in Hin as [Hin Hex]. simpl in Hex.
  rewrite orb_false_r in Hex. apply String.eqb_eq in Hex. subst.
  contradiction.
Qed.

Lemma exec_Match_graph (type_str : string) (prop : dict) (g : Neo4j.graph) :
  (Neo4j.exec (Match type_str prop) g).2 = g.
Proof. reflexivity. Qed.

(** X13. A non-creating [get_node] only reads: it sends nothing, or the
    one match on the label and the normalized property map; it writes no
    warning, and on the reference store it leaves the graph as it was. *)
Theorem get_node_lookup_only_reads :
  (forall (G : Type) (run : stmt -> G -> res (list Z) * G)
          (label : string) (prop : dict) (s : iyp G),
     stderr (get_node run (LStr label) prop false s).2 = stderr s /\
     (queries (get_node run (LStr label) prop false s).2 = queries s \/
      exists p, format_properties prop = Ok p /\
                queries (get_node run (LStr label) prop false s).2
                = (queries s ++ [Match label p])%list)) /\
  (forall (label : string) (prop : dict) (s : iyp Neo4j.graph),
     tx (get_node Neo4j.exec (LStr label) prop false s).2 = tx s).
Proof.
  assert (Hbody : forall (G : Type) (run : stmt -> G -> res (list Z) * G)
            (label : string) (prop : dict) (s : iyp G),
            get_node_body run (LStr label) prop false s
            = match format_properties prop with
              | Ok p =>
                  match run (Match label p) (tx s) with
                  | (Ok rows, g) =>
                      (Ok (single rows),
                       mkIYP (committed s) g (node_cache s) (extid_cache s)
                             (queries s ++ [Match label p])%list (stderr s))
                  | (Raise e, g) =>
                      (Raise e,
                       mkIYP (committed s) g (node_cache s) (extid_cache s)
                             (queries s ++ [Match label p])%list (stderr s))
                  end
              | Raise e => (Raise e, s)
              end).
  { intros G run label prop s. unfold get_node_body, bind, lift, ret, tx_run.
    destruct (format_properties prop) as [p|e]; [|reflexivity].
    destruct (run (Match label p) (tx s)) as [[rows|e] g]; reflexivity. }
  split.
  - intros G run label prop s.
    destruct (get_node_cases run (LStr label) prop false s)
      as [->|[(v & Hf & ->)|[Hm [(v & s0 & E & ->)|(e & s0 & E & ->)]]]];
      simpl; try (split; [reflexivity|now left]);
      rewrite Hbody in E;
      (destruct (format_properties prop) as [p|e0]; [|discriminate E || idtac]).
    + destruct (run (Match label p) (tx s)) as [[rows|e] g];
        [|discriminate].
      injection E as _ <-. simpl. split; [reflexivity|]. right. eauto.
    + destruct (run (Match label p) (tx s)) as [[rows|e1] g];
        [discriminate|].
      injection E as _ <-. simpl. split; [reflexivity|]. right. eauto.
    + injection E as _ <-. split; [reflexivity|now left].
  - intros label prop s.
    destruct (get_node_cases Neo4j.exec (LStr label) prop false s)
      as [->|[(v & Hf & ->)|[Hm [(v & s0 & E & ->)|(e & s0 & E & ->)]]]];
      simpl; try reflexivity;
      rewrite Hbody in E;
      (destruct (format_properties prop) as [p|e0]; [|discriminate E || idtac]);
      simpl in E; injection E as _ <-; reflexivity.
Qed.

(** X14. What a creating [get_node] that goes to the store sends first.
    For a label without constraints it is one merge on the label and the
    whole normalized property map.  For a constrained label it is a merge
    whose pattern holds exactly the label's constrained properties, in
    registry order, each with its normalized value, and which sets every
    normalized property and the label. *)
Theorem get_node_create_statement {G : Type}
    (run : stmt -> G -> res (list Z) * G)
    (label : string) (prop p : dict) (s : iyp G) :
  lru_find (key_of (LStr label) prop true) (node_cache s) = None ->
  format_properties prop = Ok p ->
  (~ In label NODE_CONSTRAINTS_LABELS ->
   queries (get_node run (LStr label) prop true s).2
   = (queries s ++ [Merge label p])%list) /\
  (In label NODE_CONSTRAINTS_LABELS ->
   forall cp, constraint_props (constraint_keys label) p = Ok cp ->
   map fst cp = constraint_keys label /\
   (forall k v, In (k, v) cp -> dict_get k p = Some v) /\
   exists rest,
     queries (get_node run (LStr label) prop true s).2
     = (queries s ++ MergeSet label cp p [label] :: rest)%list).
Proof.
  intros Hmiss Hp. split.
  - intros Hl.
    rewrite (get_node_miss run (LStr label) prop true s eq_refl Hmiss).
    unfold get_node_body, bind, lift, ret. rewrite Hp.
    rewrite (no_constraints_single _ Hl). unfold tx_run.
    destruct (run (Merge label p) (tx s)) as [[rows|e] g]; reflexivity.
  - intros Hl cp Hcp.
    destruct (constraint_props_get _ _ _ Hcp) as [Hk Hv].
    split; [exact Hk|]. split; [exact Hv|].
    rewrite (get_node_miss run (LStr label) prop true s eq_refl Hmiss).
    unfold get_node_body, bind, lift, ret. rewrite Hp.
    rewrite (has_constraints_single _ Hl), Hcp.
    unfold try_except_ConstraintError, tx_run, stderr_write.
    destruct (run (MergeSet label cp p [label]) (tx s)) as [[rows|e] g1].
    + exists []. reflexivity.
    + destruct e; try (exists []; reflexivity). simpl.
      destruct (run (Match label cp) g1) as [[rows|e] g2]; simpl;
        rewrite <- app_assoc; eauto.
Qed.

Lemma get_node_create_statement_witness :
  let s0 := Neo4j.connect Neo4j.empty in
  let prop := [("prefix", VStr "2001:DB8::/32"); ("af", VInt 6);
               ("descr", VStr "doc")] in
  let p := [("prefix", VStr "2001:db8::/32"); ("af", VInt 6);
            ("descr", VStr "doc")] in
  let cp := [("prefix", VStr "2001:db8::/32"); ("af", VInt 6)] in
  map fst cp = constraint_keys "PREFIX" /\
  (forall k v, In (k, v) cp -> dict_get k p = Some v) /\
  exists rest,
    queries (get_node Neo4j.exec (LStr "PREFIX") prop true s0).2
    = (queries s0 ++ MergeSet "PREFIX" cp p ["PREFIX"] :: rest)%list.
Proof.
  intros s0 prop p cp.
  apply (proj2 (get_node_create_statement Neo4j.exec "PREFIX" prop p s0
                  eq_refl eq_refl)).
  - vm_compute. tauto.
  - reflexivity.
Defined.

(** ** Links and their provenance *)

Lemma add_links_loop_same (links merges : list link) :
  Forall (fun l => has_reference l = true /\ format_properties l.2 = Ok l.2)
         links ->
  add_links_loop links merges = Ok (merges ++ links)%list.
Proof.
  revert merges. induction links as [|[[type dst] prop] links IH];
    intros merges Hall; simpl.
  - now rewrite app_nil_r.
  - apply Forall_cons_1 in Hall as [[Hr Hf] Hall].
    unfold has_reference in Hr. simpl in Hr, Hf.
    apply andb_prop in Hr as [Hr Ht]. apply andb_prop in Hr as [Ho Hu].
    rewrite Ho, Hu, Ht, Hf. simpl. rewrite (IH _ Hall).
    now rewrite <- app_assoc.
Qed.

Lemma add_links_loop_checked (links merges out : list link) :
  add_links_loop links merges = Ok out ->
  Forall (fun l => has_reference l = true) links.
Proof.
  revert merges. induction links as [|[[type dst] prop] links IH];
    intros merges; simpl; [constructor|].
  destruct (dict_in "reference_org" prop) eqn:Ho; simpl; [|discriminate].
  destruct (dict_in "reference_url" prop) eqn:Hu; simpl; [|discriminate].
  destruct (dict_in "reference_time" prop) eqn:Ht; simpl; [|discriminate].
  destruct (format_properties prop); simpl; [|discriminate].
  intros H. constructor; [|eapply IH; exact H].
  unfold has_reference. simpl. now rewrite Ho, Hu, Ht.
Qed.

Lemma format_properties_dict_in (p p' : dict) (k : string) :
  format_properties p = Ok p' -> dict_in k p' = dict_in k p.
Proof.
  intros H. unfold dict_in.
  pose proof (format_properties_absent p p' k H) as Hiff.
  destruct (dict_get k p') as [v'|] eqn:E1;
    destruct (dict_get k p) as [v|] eqn:E2; auto.
  - discriminate (proj2 Hiff eq_refl).
  - discriminate (proj1 Hiff eq_refl).
Qed.

(** X15. Links that carry a crawler's [reference] dictionary as their
    properties always pass the batcher: whatever the organization, the
    url and the day, the dictionary has the three provenance keys and is
    already normalized, so the call sends exactly one statement holding
    the links as given. *)
Theorem add_links_with_crawler_reference {G : Type}
    (run : stmt -> G -> res (list Z) * G)
    (organization url : value) (today : string)
    (src_node : Z) (targets : list (string * Z)) (s : iyp G) :
  let links :=
    map (fun t => (t.1, t.2, BaseCrawler_reference organization url today))
        targets in
  Forall (fun l => has_reference l = true) links /\
  queries (add_links run src_node links s).2
  = (queries s ++ [Links src_node links])%list.
Proof.
  intros links.
  assert (Hall : Forall (fun l => has_reference l = true /\
                                  format_properties l.2 = Ok l.2) links).
  { subst links. apply List.Forall_forall. intros l Hin.
    apply in_map_iff in Hin as (t & <- & _). split; reflexivity. }
  split.
  - eapply List.Forall_impl; [|exact Hall]. now intros l [H _].
  - unfold add_links, bind, lift, tx_run, ret.
    rewrite (add_links_loop_same links [] Hall). simpl.
    destruct (run (Links src_node links) (tx s)) as [[rows|e] g]; reflexivity.
Qed.

(** X16. Every clause [add_links] sends carries the three provenance keys
    and normalized properties: if the call sent anything, it sent one
    statement with as many clauses as links, each with reference_org,
    reference_url and reference_time and with properties the normalizer
    leaves alone. *)
Theorem add_links_clauses_carry_reference {G : Type}
    (run : stmt -> G -> res (list Z) * G)
    (src_node : Z) (links : list link) (s : iyp G) :
  queries (add_links run src_node links s).2 = queries s \/
  exists clauses,
    queries (add_links run src_node links s).2
    = (queries s ++ [Links src_node clauses])%list /\
    length clauses = length links /\
    Forall (fun c => has_reference c = true) clauses /\
    Forall (fun c => format_properties c.2 = Ok c.2) clauses.
Proof.
  unfold add_links, bind, lift, tx_run, ret.
  destruct (add_links_loop links []) as [out|e] eqn:E; [|now left].
  right. exists out.
  pose proof (add_links_loop_checked _ _ _ E) as Href.
  destruct (add_links_loop_cases links []) as [[e He]|(clauses & Hc & Hall)];
    [congruence|].
  rewrite E in Hc. simpl in Hc. injection Hc as ->.
  split; [|split; [|split]].
  - destruct (run (Links src_node clauses) (tx s)) as [[rows|e] g];
      reflexivity.
  - symmetry. eapply Forall2_length. exact Hall.
  - clear E. induction Hall as [|l c links clauses [_ Hf] Hall IH];
      [constructor|].
    apply Forall_cons_1 in Href as [Hr Href].
    constructor; [|now apply IH].
    unfold has_reference in *.
    now rewrite !(format_properties_dict_in _ _ _ Hf).
  - clear E Href. induction Hall as [|l c links clauses [_ Hf] Hall IH];
      constructor; [|exact IH].
    now apply (format_properties_fixpoint l.2).
Qed.

(** ** The schema pass *)

Lemma db_init_with_constraint
    (R : list (string * list (string * list constraint)))
    (I : list (string * list string)) (e : bool)
    (label property : string) (c : constraint) :
  In (CreateConstraint label property c) (db_init_with R I e) <->
  registered R label property c /\ (e = true \/ c = UNIQUE).
Proof.
  unfold db_init_with, registered. rewrite in_app_iff. split.
  - intros [H|H].
    + apply in_flat_map in H as ([l0 props] & Hl & H).
      apply in_flat_map in H as ([p0 cs] & Hp & H).
      apply in_flat_map in H as (c0 & Hc & H).
      destruct (negb e && negb (bool_decide (c0 = UNIQUE))) eqn:E;
        [destruct H|].
      destruct H as [[= <- <- <-]|[]]. split; [eauto|].
      destruct e; [now left|]. right. simpl in E.
      apply negb_false_iff in E. now apply bool_decide_eq_true in E.
    + apply in_flat_map in H as ([l0 idx] & _ & H).
      apply in_map_iff in H as (i & [=] & _).
  - intros [(props & cs & Hl & Hp & Hc) He]. left.
    apply in_flat_map. exists (label, props). split; [exact Hl|].
    apply in_flat_map. exists (property, cs). split; [exact Hp|].
    apply in_flat_map. exists c. split; [exact Hc|].
    destruct He as [->| ->]; [|destruct e]; now left.
Qed.

Lemma db_init_with_index
    (R : list (string * list (string * list constraint)))
    (I : list (string * list string)) (e : bool) (label index : string) :
  In (CreateIndex label index) (db_init_with R I e) <->
  exists indexes, In (label, indexes) I /\ In index indexes.
Proof.
  unfold db_init_with. rewrite in_app_iff. split.
  - intros [H|H].
    + apply in_flat_map in H as ([l0 props] & _ & H).
      apply in_flat_map in H as ([p0 cs] & _ & H).
      apply in_flat_map in H as (c0 & _ & H).
      destruct (negb e && negb (bool_decide (c0 = UNIQUE)));
        [destruct H|destruct H as [[=]|[]]].
    + apply in_flat_map in H as ([l0 idx] & Hl & H).
      apply in_map_iff in H as (i & [= <- <-] & Hi). eauto.
  - intros (idx & Hl & Hi). right.
    apply in_flat_map. exists (label, idx). split; [exact Hl|].
    apply in_map_iff. eauto.
Qed.

(** X17. [_db_init] declares a constraint exactly when the registry lists
    it and, without the enterprise edition, it is UNIQUE; it declares an
    index exactly when the index registry lists it, whatever the
    edition. *)
Theorem db_init_declares (neo4j_enterprise : bool) :
  (forall (label property : string) (c : constraint),
     In (CreateConstraint label property c) (_db_init neo4j_enterprise) <->
     registered NODE_CONSTRAINTS label property c /\
     (neo4j_enterprise = true \/ c = UNIQUE)) /\
  (forall label index : string,
     In (CreateIndex label index) (_db_init neo4j_enterprise) <->
     exists indexes, In (label, indexes) NODE_INDEXES /\ In index indexes).
Proof.
  change (_db_init neo4j_enterprise)
    with (db_init_with NODE_CONSTRAINTS NODE_INDEXES neo4j_enterprise).
  split; intros.
  - apply db_init_with_constraint.
  - apply db_init_with_index.
Qed.

(** ** [dict2str] *)

Lemma str_init_snoc (s : string) (c : ascii) :
  str_init (s +:+ String c EmptyString) = s.
Proof.
  induction s as [|a r IH]; [reflexivity|].
  change (String a r +:+ String c EmptyString)
    with (String a (r +:+ String c EmptyString)).
  cbn [str_init]. rewrite IH.
  destruct r; reflexivity.
Qed.

(** X18. The text of [dict2str] is the items joined by commas between one
    pair of braces, so the slice [1:-1] that [get_node] takes for its SET
    clause is exactly the joined items, empty for an empty dictionary. *)
Theorem dict2str_slice (d : dict) (eq pfx : string) :
  slice_1_m1 (dict2str d eq pfx)
  = String.concat "," (map (dict2str_item eq pfx) d).
Proof.
  unfold dict2str, slice_1_m1.
  change ("{" +:+ String.concat "," (map (dict2str_item eq pfx) d) +:+ "}")
    with (String "{"%char
            (String.concat "," (map (dict2str_item eq pfx) d) +:+ "}")).
  apply str_init_snoc.
Qed.

Lemma read_body_plain (delim : ascii) (s : string) :
  str_contains "\"%char s = false -> str_contains delim s = false ->
  read_body delim (s +:+ String delim EmptyString) = Some s.
Proof.
  induction s as [|c r IH]; intros Hb Hd.
  - change (read_body delim (String delim EmptyString) = Some EmptyString).
    cbn [read_body]. now rewrite Ascii.eqb_refl.
  - cbn [str_contains] in Hb, Hd.
    apply orb_false_elim in Hb as [Hb Hbr].
    apply orb_false_elim in Hd as [Hd Hdr].
    change (String c r +:+ String delim EmptyString)
      with (String c (r +:+ String delim EmptyString)).
    cbn [read_body].
    rewrite (Ascii.eqb_sym c delim), Hd, (Ascii.eqb_sym c "\"%char), Hb.
    now rewrite (IH Hbr Hdr).
Qed.

Lemma read_body_escaped (s : string) :
  str_contains "\"%char s = false ->
  read_body "'"%char (str_replace "'"%char "\'" s +:+ "'") = Some s.
Proof.
  induction s as [|c r IH]; intros Hb; [reflexivity|].
  cbn [str_contains] in Hb. apply orb_false_elim in Hb as [Hb Hbr].
  cbn [str_replace]. destruct (Ascii.eqb "'"%char c) eqn:Eq.
  - apply Ascii.eqb_eq in Eq. subst c.
    change (("\'" +:+ str_replace "'"%char "\'" r) +:+ "'")
      with (String "\"%char
              (String "'"%char (str_replace "'"%char "\'" r +:+ "'"))).
    cbn. now rewrite (IH Hbr).
  - change (String c (str_replace "'"%char "\'" r) +:+ "'")
      with (String c (str_replace "'"%char "\'" r +:+ "'")).
    cbn [read_body].
    rewrite (Ascii.eqb_sym c "'"%char), Eq, (Ascii.eqb_sym c "\"%char), Hb.
    now rewrite (IH Hbr).
Qed.

Lemma pretty_Z_head (z : Z) :
  exists c r, pretty z = String c r /\
              Ascii.eqb c dquote = false /\ Ascii.eqb c "'"%char = false.
Proof.
  destruct z as [|p|p].
  - exists "0"%char, EmptyString. now repeat split.
  - change (pretty (Z.pos p)) with (pretty_N_go (N.pos p) EmptyString).
    destruct (pretty_N_go_head (N.pos p) ltac:(lia) EmptyString)
      as (c & r & -> & Hd).
    exists c, r. split; [reflexivity|].
    destruct c as [[] [] [] [] [] [] [] []]; try discriminate Hd;
      now split.
  - exists "-"%char, (pretty_N_go (N.pos p) EmptyString). now repeat split.
Qed.

Lemma literal_reads_back (v : value) :
  readable v = true -> read_literal (literal v) = Some v.
Proof.
  destruct v as [z|s|iso]; intros Hr; [| |discriminate].
  - cbn [readable] in Hr. cbn [literal].
    destruct (pretty_Z_head z) as (c & r & E & Hq & Hs).
    unfold read_literal. rewrite E, Hq, Hs. rewrite <- E.
    now rewrite int_of_string_pretty, Hr.
  - cbn [readable] in Hr. apply negb_true_iff in Hr. cbn [literal].
    destruct (str_contains dquote s) eqn:Hq.
    + change ("'" +:+ str_replace "'"%char "\'" s +:+ "'")
        with (String "'"%char (str_replace "'"%char "\'" s +:+ "'")).
      cbn [read_literal].
      change (Ascii.eqb "'"%char dquote) with false.
      rewrite Ascii.eqb_refl. cbv iota.
      now rewrite (read_body_escaped s Hr).
    + cbn [read_literal]. rewrite Ascii.eqb_refl.
      now rewrite (read_body_plain dquote s Hr Hq).
Qed.

(** X19. [dict2str] writes every item as the key, [eq], a space and the
    literal of the value: a string without a double quote unchanged
    between double quotes, a string with one between single quotes with
    each single quote escaped, an integer in decimal.  For a 64-bit
    integer and for a string without a backslash, reading that literal,
    with quotes and backslash escapes or as a number, gives the value
    back. *)
Theorem dict2str_literal_reads_back :
  (forall (eq pfx key : string) (v : value),
     dict2str_item eq pfx (key, v)
     = pfx +:+ key +:+ eq +:+ " " +:+ literal v) /\
  (forall s : string,
     str_contains dquote s = false ->
     literal (VStr s) = String dquote (s +:+ String dquote EmptyString)) /\
  (forall s : string,
     str_contains dquote s = true ->
     literal (VStr s)
     = String "'"%char (str_replace "'"%char "\'" s +:+ "'")) /\
  (forall v : value, readable v = true -> read_literal (literal v) = Some v).
Proof.
  split; [|split; [|split]].
  - intros eq pfx key [z|s|iso]; cbn [dict2str_item literal];
      [reflexivity| |reflexivity].
    destruct (str_contains dquote s); reflexivity.
  - intros s H. cbn [literal]. now rewrite H.
  - intros s H. cbn [literal]. now rewrite H.
  - exact literal_reads_back.
Qed.

Lemma dict2str_literal_reads_back_witness :
  readable (VStr "it's") = true /\
  read_literal (literal (VStr "it's")) = Some (VStr "it's").
Proof.
  split; [reflexivity|].
  apply (proj2 (proj2 (proj2 dict2str_literal_reads_back)) (VStr "it's")).
  reflexivity.
Defined.

(** X20. [dict2str] writes a timestamp exactly as it writes the string of
    its text: the statement gives the store a string literal, and a
    dictionary with its timestamps replaced by those strings has the same
    text. *)
Theorem dict2str_time_as_text (d : dict) (eq pfx : string) :
  plain_times d ->
  dict2str (time_as_text d) eq pfx = dict2str d eq pfx.
Proof.
  intros Hd. unfold dict2str. do 2 f_equal. f_equal.
  unfold time_as_text. rewrite map_map. apply map_ext_in.
  intros [k v] Hin. destruct v as [z|s|iso]; try reflexivity.
  simpl. now rewrite (Hd k iso Hin).
Qed.

Lemma dict2str_time_as_text_witness :
  dict2str (time_as_text
              (BaseCrawler_reference (VStr "RIPE") (VStr "http://x")
                 "2022-05-01")) ":" ""
  = dict2str (BaseCrawler_reference (VStr "RIPE") (VStr "http://x")
                "2022-05-01") ":" "".
Proof.
  apply (dict2str_time_as_text
           (BaseCrawler_reference (VStr "RIPE") (VStr "http://x")
              "2022-05-01") ":" "").
  intros k iso Hin. simpl in Hin.
  decompose [or] Hin; try discriminate; try contradiction.
  match goal with E : (_, _) = (_, _) |- _ => injection E as _ <- end.
  reflexivity.
Defined.

(** ** Creating, then looking up, on the reference store *)

Lemma in_dict_get (k : string) (v : value) (d : dict) :
  NoDup (dict_keys d) -> In (k, v) d -> dict_get k d = Some v.
Proof.
  induction d as [|[k0 v0] d IH]; simpl; [tauto|].
  intros Hnd Hin. apply NoDup_cons in Hnd as [Hk0 Hnd].
  destruct Hin as [[= -> ->]|Hin].
  - now rewrite String.eqb_refl.
  - destruct (String.eqb k k0) eqn:E; [|auto].
    apply String.eqb_eq in E. subst k0. exfalso. apply Hk0.
    apply list_elem_of_In. apply in_map_iff. now exists (k, v).
Qed.

Lemma add_labels_mono (labels old : list string) (l : string) :
  existsb (String.eqb l) old = true ->
  existsb (String.eqb l) (Neo4j.add_labels labels old) = true.
Proof.
  unfold Neo4j.add_labels. revert old.
  induction labels as [|l0 labels IH]; intros old H; simpl; [exact H|].
  apply IH. destruct (existsb (String.eqb l0) old); [exact H|].
  rewrite existsb_app, H. reflexivity.
Qed.

Lemma add_labels_has (labels old : list string) (l : string) :
  In l labels ->
  existsb (String.eqb l) (Neo4j.add_labels labels old) = true.
Proof.
  revert old. induction labels as [|l0 labels IH]; intros old; [intros []|].
  intros [->|Hin].
  - change (Neo4j.add_labels (l :: labels) old)
      with (Neo4j.add_labels labels
              (if existsb (String.eqb l) old then old else (old ++ [l])%list)).
    apply add_labels_mono.
    destruct (existsb (String.eqb l) old) eqn:E; [exact E|].
    rewrite existsb_app. simpl. now rewrite String.eqb_refl, orb_true_r.
  - change (Neo4j.add_labels (l0 :: labels) old)
      with (Neo4j.add_labels labels
              (if existsb (String.eqb l0) old then old
               else (old ++ [l0])%list)).
    now apply IH.
Qed.

Lemma fits_own_props (labels : list string) (p old : dict) (i : Z)
    (ls : list string) :
  NoDup (dict_keys p) ->
  (forall l, In l labels -> existsb (String.eqb l) ls = true) ->
  Neo4j.fits labels p (Neo4j.mkNode i ls (Neo4j.set_props p old)) = true.
Proof.
  intros Hnd Hl. unfold Neo4j.fits. apply andb_true_intro. split.
  - apply forallb_forall. intros l Hin. now apply Hl.
  - apply has_props_spec. intros k v Hin. simpl.
    apply set_props_get; [exact Hnd|]. now apply in_dict_get.
Qed.

Lemma fits_weaken (labels : list string) (cp p : dict) (n : Neo4j.node) :
  (forall k v, In (k, v) cp -> In (k, v) p) ->
  Neo4j.fits labels p n = true -> Neo4j.fits labels cp n = true.
Proof.
  intros Hsub. unfold Neo4j.fits. intros H.
  apply andb_prop in H as [Hl Hp]. rewrite Hl. simpl.
  apply has_props_spec. intros k v Hin.
  now apply (proj1 (has_props_spec p n) Hp), Hsub.
Qed.

Lemma filter_after_on_set (label : string) (cp p : dict)
    (ns : list Neo4j.node) :
  NoDup (dict_keys p) ->
  (forall k v, In (k, v) cp -> In (k, v) p) ->
  List.filter (Neo4j.fits [label] p)
    (map (fun m => if Neo4j.fits [label] cp m
                   then Neo4j.on_set p [label] m else m) ns)
  = map (Neo4j.on_set p [label]) (List.filter (Neo4j.fits [label] cp) ns).
Proof.
  intros Hnd Hsub. induction ns as [|m ns IH]; [reflexivity|].
  cbn [map List.filter].
  destruct (Neo4j.fits [label] cp m) eqn:Hcp.
  - assert (Hfit : Neo4j.fits [label] p (Neo4j.on_set p [label] m) = true).
    { apply on_set_fits; [exact Hnd| |].
      - intros k v Hin. now apply in_dict_get.
      - now apply fits_single in Hcp as [Hl _]. }
    rewrite Hfit. cbn [map]. now rewrite IH.
  - destruct (Neo4j.fits [label] p m) eqn:Hp; [|exact IH].
    apply (fits_weaken _ cp) in Hp; [congruence|exact Hsub].
Qed.

Lemma labels_of_constrained (label : string) :
  In label NODE_CONSTRAINTS_LABELS -> Neo4j.labels_of label = [label].
Proof.
  intros H. simpl in H. decompose [or] H; subst; try reflexivity.
  contradiction.
Qed.

(** The answer of the match on the whole property map, right after the
    merge of the same descriptor succeeded: the same rows. *)
Lemma exec_Merge_then_Match (label : string) (p : dict)
    (g g1 : Neo4j.graph) (rows : list Z) :
  NoDup (dict_keys p) ->
  Neo4j.exec (Merge label p) g = (Ok rows, g1) ->
  (Neo4j.exec (Match label p) g1).1 = Ok rows.
Proof.
  intros Hnd. cbn [Neo4j.exec].
  destruct (List.filter (Neo4j.fits (Neo4j.labels_of label) p) (Neo4j.nodes g))
    as [|n0 found] eqn:Hf.
  - intros H. apply checked_ok in H as (-> & -> & _). cbn [Neo4j.nodes fst].
    rewrite List.filter_app, Hf. cbn [List.filter app].
    rewrite fits_own_props; [reflexivity|exact Hnd|].
    intros l Hl. now apply add_labels_has.
  - intros [= <- <-]. cbn [fst]. now rewrite Hf.
Qed.

Lemma exec_MergeSet_then_Match (label : string) (cp p : dict)
    (g g1 : Neo4j.graph) (rows : list Z) :
  NoDup (dict_keys p) ->
  (forall k v, In (k, v) cp -> In (k, v) p) ->
  Neo4j.labels_of label = [label] ->
  Neo4j.exec (MergeSet label cp p [label]) g = (Ok rows, g1) ->
  (Neo4j.exec (Match label p) g1).1 = Ok rows.
Proof.
  intros Hnd Hsub Hlo. cbn [Neo4j.exec]. rewrite Hlo. cbn [fst].
  destruct (List.filter (Neo4j.fits [label] cp) (Neo4j.nodes g))
    as [|n0 found] eqn:Hf; intros H.
  - apply checked_ok in H as (-> & -> & _). cbn [Neo4j.nodes]. f_equal.
    rewrite List.filter_app.
    assert (Hold : List.filter (Neo4j.fits [label] p) (Neo4j.nodes g) = []).
    { destruct (List.filter (Neo4j.fits [label] p) (Neo4j.nodes g))
        as [|m ms] eqn:E; [reflexivity|].
      assert (Hm : In m (List.filter (Neo4j.fits [label] p) (Neo4j.nodes g)))
        by (rewrite E; now left).
      apply filter_In in Hm as [Hin Hfit].
      apply (fits_weaken _ cp) in Hfit; [|exact Hsub].
      assert (Hc : In m (List.filter (Neo4j.fits [label] cp) (Neo4j.nodes g)))
        by (apply filter_In; auto).
      rewrite Hf in Hc. destruct Hc. }
    rewrite Hold. cbn [List.filter app].
    unfold Neo4j.on_set at 1. cbn [Neo4j.node_id Neo4j.node_labels
                                   Neo4j.node_props].
    rewrite fits_own_props; [reflexivity|exact Hnd|].
    intros l [<-|[]]. apply add_labels_has. now left.
  - apply checked_ok in H as (-> & -> & _). cbn [Neo4j.nodes]. f_equal.
    rewrite (filter_after_on_set label cp p _ Hnd Hsub), Hf.
    rewrite map_map. reflexivity.
Qed.

Lemma lookup_answer (label : string) (prop p : dict)
    (s : iyp Neo4j.graph) (rows : list Z) :
  format_properties prop = Ok p ->
  lru_find (key_of (LStr label) prop false) (node_cache s) = None ->
  (Neo4j.exec (Match label p) (tx s)).1 = Ok rows ->
  exists s2,
    get_node Neo4j.exec (LStr label) prop false s = (Ok (single rows), s2) /\
    tx s2 = tx s.
Proof.
  intros Hp Hmiss Hrows.
  rewrite (get_node_miss Neo4j.exec (LStr label) prop false s eq_refl Hmiss).
  unfold get_node_body, bind, lift, ret, tx_run. rewrite Hp.
  pose proof (exec_Match_graph label p (tx s)) as Hg.
  destruct (Neo4j.exec (Match label p) (tx s)) as [r g]. simpl in Hrows, Hg.
  subst r g. eexists. split; reflexivity.
Qed.

(** X21. On the reference store, what a creating resolve returns is what
    a lookup of the same descriptor finds: after a [get_node] with
    create=true went to the store and returned without the
    constraint-violation warning, a [get_node] with create=false that
    goes to the store returns the same identifier, which is not [None],
    and leaves the graph as it is. *)
Theorem create_then_lookup (label : string) (prop : dict)
    (s s1 : iyp Neo4j.graph) (v : option Z) :
  NoDup (dict_keys prop) ->
  lru_find (key_of (LStr label) prop true) (node_cache s) = None ->
  get_node Neo4j.exec (LStr label) prop true s = (Ok v, s1) ->
  stderr s1 = stderr s ->
  lru_find (key_of (LStr label) prop false) (node_cache s1) = None ->
  v <> None /\
  exists s2,
    get_node Neo4j.exec (LStr label) prop false s1 = (Ok v, s2) /\
    tx s2 = tx s1.
Proof.
  intros Hnd Hmiss Hcall Herr Hmiss2.
  rewrite (get_node_miss Neo4j.exec (LStr label) prop true s eq_refl Hmiss)
    in Hcall.
  destruct (get_node_body Neo4j.exec (LStr label) prop true s)
    as [[v0|e0] s0] eqn:E; [|discriminate].
  injection Hcall as -> <-. cbn [stderr set_node_cache] in Herr.
  unfold get_node_body, bind, lift, ret in E.
  destruct (format_properties prop) as [p|e] eqn:Hp; [|discriminate].
  assert (Hndp : NoDup (dict_keys p)).
  { now rewrite (format_properties_keys _ _ Hp). }
  assert (Hrows : exists rows, rows <> [] /\ v = single rows /\
            (Neo4j.exec (Match label p) (tx s0)).1 = Ok rows).
  { destruct (in_dec string_dec label NODE_CONSTRAINTS_LABELS) as [Hl|Hl].
    - rewrite (has_constraints_single _ Hl) in E.
      destruct (constraint_props (constraint_keys label) p) as [cp|e] eqn:Hcp;
        [|discriminate].
      unfold try_except_ConstraintError, tx_run, stderr_write in E.
      destruct (Neo4j.exec (MergeSet label cp p [label]) (tx s))
        as [[rows|e] g1] eqn:Hx.
      + injection E as <- <-. exists rows. split; [|split; [reflexivity|]].
        * eapply exec_MergeSet_rows. exact Hx.
        * cbn [tx].
          apply (exec_MergeSet_then_Match label cp p (tx s) g1 rows Hndp);
            [|now apply labels_of_constrained|exact Hx].
          destruct (constraint_props_get _ _ _ Hcp) as [_ Hget].
          intros k x Hin. apply dict_get_In. now apply Hget.
      + exfalso. apply exec_MergeSet_raise in Hx as [-> ->]. cbn in E.
        injection E as _ <-. cbn in Herr. now apply app_one_neq in Herr.
    - rewrite (no_constraints_single _ Hl) in E. unfold tx_run in E.
      destruct (Neo4j.exec (Merge label p) (tx s)) as [[rows|e] g1] eqn:Hx;
        [|discriminate].
      injection E as <- <-. exists rows. split; [|split; [reflexivity|]].
      + eapply exec_Merge_rows. exact Hx.
      + cbn [tx]. exact (exec_Merge_then_Match label p (tx s) g1 rows Hndp Hx). }
  destruct Hrows as (rows & Hne & -> & Hmatch).
  split; [destruct rows; [congruence|discriminate]|].
  apply (lookup_answer label prop p _ rows Hp Hmiss2). exact Hmatch.
Qed.

Lemma create_then_lookup_witness :
  let s0 := Neo4j.connect Neo4j.empty in
  let prop := [("prefix", VStr "2001:DB8::/32"); ("af", VInt 6)] in
  let r1 := get_node Neo4j.exec (LStr "PREFIX") prop true s0 in
  Some 0 <> None /\
  exists s2,
    get_node Neo4j.exec (LStr "PREFIX") prop false r1.2 = (Ok (Some 0), s2) /\
    tx s2 = tx r1.2.
Proof.
  intros s0 prop r1.
  apply (create_then_lookup "PREFIX" prop s0 r1.2 (Some 0)).
  - apply (bool_decide_unpack _). vm_compute. exact I.
  - reflexivity.
  - vm_compute. reflexivity.
  - reflexivity.
  - vm_compute. reflexivity.
Defined.

(** ** Entries persist below capacity *)

Section Persistence.
Context {G : Type}.
Variable run : stmt -> G -> res (list Z) * G.

Lemma do_call_node_cache (c : call) (s : iyp G) (k : node_key)
    (v : option Z) :
  Z.of_nat (length (node_cache s)) < maxsize ->
  lru_find k (node_cache s) = Some v ->
  lru_find k (node_cache (do_call run c s)) = Some v /\
  (length (node_cache (do_call run c s)) <= S (length (node_cache s)))%nat.
Proof.
  intros Hlen Hk. destruct c as [type prop create|id_type id|src links]; simpl.
  - destruct (get_node_cases run type prop create s)
      as [->|[(v0 & Hf & ->)|[Hm [(v0 & s0 & E & ->)|(e & s0 & E & ->)]]]];
      simpl.
    + split; [exact Hk|lia].
    + split.
      * unfold lru_touch. cbn [lru_find].
        destruct (decide (k = key_of type prop create)) as [->|Hne];
          [congruence|].
        now rewrite lru_find_remove_other.
      * pose proof (lru_remove_found_length _ _ _ Hf). simpl. lia.
    + unfold lru_add. rewrite Hm.
      apply Z.ltb_lt in Hlen. rewrite Z.ltb_antisym in Hlen.
      apply negb_true_iff in Hlen. rewrite Hlen. split.
      * cbn [lru_find].
        destruct (decide (k = key_of type prop create)) as [->|Hne];
          [congruence|exact Hk].
      * simpl. lia.
    + pose proof (framed_get_node_body run type prop create s) as (Hc & _).
      rewrite E in Hc. simpl in Hc. rewrite Hc. split; [exact Hk|lia].
  - destruct (get_node_extid_cases run id_type id s)
      as [(v0 & Hf & ->)|[Hm [(v0 & s0 & E & ->)|(e & s0 & E & ->)]]];
      simpl; try (split; [exact Hk|lia]);
      pose proof (framed_get_node_extid_body run id_type id s) as (Hc & _);
      rewrite E in Hc; simpl in Hc; rewrite Hc; (split; [exact Hk|lia]).
  - pose proof (framed_add_links run src links s) as (Hc & _).
    rewrite Hc. split; [exact Hk|lia].
Qed.

End Persistence.

(** X22. Below capacity nothing is evicted: when the entries of the node
    cache and the calls to come together do not exceed [maxsize], every
    key cached before a sequence of resolver and linker calls is still
    cached, with the same value, after it. *)
Theorem cached_entries_persist {G : Type}
    (run : stmt -> G -> res (list Z) * G)
    (cs : list call) (s : iyp G) (k : node_key) (v : option Z) :
  Z.of_nat (length (node_cache s)) + Z.of_nat (length cs) <= maxsize ->
  lru_find k (node_cache s) = Some v ->
  lru_find k (node_cache (do_calls run cs s)) = Some v.
Proof.
  unfold do_calls. revert s. induction cs as [|c cs IH]; intros s Hlen Hk;
    simpl; [exact Hk|].
  simpl length in Hlen.
  destruct (do_call_node_cache run c s k v ltac:(lia) Hk) as [Hk' Hl'].
  apply IH; [lia|exact Hk'].
Qed.

Lemma cached_entries_persist_witness :
  let s1 := (get_node Neo4j.exec (LStr "AS") [("asn", VInt 65000)] true
               (Neo4j.connect Neo4j.empty)).2 in
  lru_find (key_of (LStr "AS") [("asn", VInt 65000)] true)
    (node_cache
       (do_calls Neo4j.exec
          [CallGetNode (LStr "AS") [("asn", VInt 64512)] true;
           CallGetNodeExtid "PEERINGDB_ORG_ID" (VInt 7)] s1))
  = Some (Some 0).
Proof.
  intros s1.
  apply (cached_entries_persist Neo4j.exec
           [CallGetNode (LStr "AS") [("asn", VInt 64512)] true;
            CallGetNodeExtid "PEERINGDB_ORG_ID" (VInt 7)] s1).
  - vm_compute. discriminate.
  - vm_compute. reflexivity.
Defined.

(** ** Merging links twice *)

Lemma merge_rel_linked (src : Z) (rs : list Neo4j.rel) (l : link) :
  Neo4j.merge_rel src rs l
  = if linked src rs l then rs
    else (rs ++ [Neo4j.mkRel src l.1.1 (Neo4j.set_props l.2 []) l.1.2])%list.
Proof. destruct l as [[type dst] prop]. reflexivity. Qed.

Lemma linked_app (src : Z) (rs more : list Neo4j.rel) (l : link) :
  linked src rs l = true -> linked src (rs ++ more) l = true.
Proof. unfold linked. intros H. now rewrite existsb_app, H. Qed.

Lemma merge_rel_keeps (src : Z) (rs : list Neo4j.rel) (l l' : link) :
  linked src rs l = true -> linked src (Neo4j.merge_rel src rs l') l = true.
Proof.
  intros H. rewrite merge_rel_linked.
  destruct (linked src rs l'); [exact H|now apply linked_app].
Qed.

Lemma merge_rel_links (src : Z) (rs : list Neo4j.rel) (l : link) :
  NoDup (dict_keys l.2) -> linked src (Neo4j.merge_rel src rs l) l = true.
Proof.
  intros Hnd. rewrite merge_rel_linked.
  destruct (linked src rs l) eqn:E; [exact E|].
  unfold linked. rewrite existsb_app. apply orb_true_iff. right.
  cbn [existsb Neo4j.rel_src Neo4j.rel_type Neo4j.rel_dst Neo4j.rel_props].
  rewrite !bool_decide_eq_true_2 by reflexivity.
  rewrite String.eqb_refl. cbn [andb orb]. rewrite orb_false_r.
  apply forallb_forall. intros [k v] Hin. apply bool_decide_eq_true.
  apply set_props_get; [exact Hnd|]. now apply in_dict_get.
Qed.

Lemma fold_merge_rel_keeps (src : Z) (ls : list link) (rs : list Neo4j.rel)
    (l : link) :
  linked src rs l = true ->
  linked src (fold_left (Neo4j.merge_rel src) ls rs) l = true.
Proof.
  revert rs. induction ls as [|l0 ls IH]; intros rs H; simpl; [exact H|].
  apply IH. now apply merge_rel_keeps.
Qed.

Lemma fold_merge_rel_links (src : Z) (ls : list link) (rs : list Neo4j.rel) :
  Forall (fun l => NoDup (dict_keys l.2)) ls ->
  Forall (fun l => linked src (fold_left (Neo4j.merge_rel src) ls rs) l = true)
         ls.
Proof.
  revert rs. induction ls as [|l0 ls IH]; intros rs Hnd; [constructor|].
  apply Forall_cons_1 in Hnd as [Hnd0 Hnd]. simpl. constructor.
  - apply fold_merge_rel_keeps. now apply merge_rel_links.
  - now apply IH.
Qed.

Lemma fold_merge_rel_noop (src : Z) (ls : list link) (rs : list Neo4j.rel) :
  Forall (fun l => linked src rs l = true) ls ->
  fold_left (Neo4j.merge_rel src) ls rs = rs.
Proof.
  induction 1 as [|l ls Hl _ IH]; simpl; [reflexivity|].
  rewrite merge_rel_linked, Hl. exact IH.
Qed.

(** Sending the same batch again changes nothing on the reference
    store. *)
Lemma exec_Links_twice (src : Z) (clauses : list link) (g : Neo4j.graph) :
  Forall (fun l => NoDup (dict_keys l.2)) clauses ->
  (Neo4j.exec (Links src clauses) (Neo4j.exec (Links src clauses) g).2).2
  = (Neo4j.exec (Links src clauses) g).2.
Proof.
  intros Hnd. destruct clauses as [|l ls]; [reflexivity|].
  cbn [Neo4j.exec].
  destruct (Neo4j.node_exists src g
            && forallb (fun '(_, dst, _) => Neo4j.node_exists dst g) (l :: ls))
    eqn:E; cbn [snd]; [|now rewrite E].
  unfold Neo4j.node_exists in *. cbn [Neo4j.nodes Neo4j.rels Neo4j.next_id].
  rewrite E. cbn [snd]. f_equal.
  apply fold_merge_rel_noop. now apply fold_merge_rel_links.
Qed.

(** X23. On the reference store [add_links] is idempotent: calling it
    again with the same source and links, whose property maps hold each
    key once, leaves the graph exactly as the first call left it; no
    relationship is duplicated. *)
Theorem add_links_twice (src_node : Z) (links : list link)
    (s : iyp Neo4j.graph) :
  Forall (fun l => NoDup (dict_keys l.2)) links ->
  tx (add_links Neo4j.exec src_node links
        (add_links Neo4j.exec src_node links s).2).2
  = tx (add_links Neo4j.exec src_node links s).2.
Proof.
  intros Hnd. unfold add_links, bind, lift, tx_run, ret.
  destruct (add_links_loop links []) as [clauses|e] eqn:E; [|reflexivity].
  assert (Hc : Forall (fun l => NoDup (dict_keys l.2)) clauses).
  { destruct (add_links_loop_cases links [])
      as [[e He]|(cl & Hcl & Hall)]; [congruence|].
    rewrite E in Hcl. simpl in Hcl. injection Hcl as ->.
    clear E. induction Hall as [|l c ls cs [_ Hf] Hall IH]; [constructor|].
    apply Forall_cons_1 in Hnd as [Hl Hnd].
    constructor; [|now apply IH].
    now rewrite (format_properties_keys _ _ Hf). }
  pose proof (exec_Links_twice src_node clauses (tx s) Hc) as Htw.
  destruct (Neo4j.exec (Links src_node clauses) (tx s)) as [[rows|e] g1];
    cbn [tx snd] in *;
    destruct (Neo4j.exec (Links src_node clauses) g1) as [[rows2|e2] g2];
    cbn [tx snd] in *; exact Htw.
Qed.

Lemma add_links_twice_witness :
  let s0 := Neo4j.connect Neo4j.empty in
  let s1 := (get_node Neo4j.exec (LStr "AS") [("asn", VInt 65000)] true s0).2 in
  let s2 := (get_node Neo4j.exec (LStr "PREFIX")
               [("prefix", VStr "10.0.0.0/8"); ("af", VInt 4)] true s1).2 in
  let links := [("ORIGINATE", 1,
                 BaseCrawler_reference (VStr "TEST") (VStr "http://x")
                   "2022-01-01")] in
  length (Neo4j.rels (tx (add_links Neo4j.exec 0 links s2).2)) = 1%nat /\
  tx (add_links Neo4j.exec 0 links (add_links Neo4j.exec 0 links s2).2).2
  = tx (add_links Neo4j.exec 0 links s2).2.
Proof.
  intros s0 s1 s2 links. split; [vm_compute; reflexivity|].
  apply (add_links_twice 0 links s2).
  repeat constructor; apply (bool_decide_unpack _); vm_compute; exact I.
Defined.

(** ** The constrained merge, on values the statement text carries
    unchanged *)

(** A unique key of the registry is a uniqueness constraint of the
    store. *)
Lemma registry_unique (label k : string)
    (props : list (string * list constraint)) (cs : list constraint) :
  In (label, props) NODE_CONSTRAINTS -> In (k, cs) props -> In UNIQUE cs ->
  In (label, k) Neo4j.unique_constraints.
Proof.
  intros H Hk Hu. simpl in H.
  decompose [or] H; try contradiction;
    match goal with E : (_, _) = (_, _) |- _ => injection E as <- <- end;
    simpl in Hk; decompose [or] Hk; try contradiction;
    match goal with E : (_, _) = (_, _) |- _ => injection E as <- <- end;
    simpl in Hu; decompose [or] Hu; try contradiction; try discriminate;
    vm_compute; tauto.
Qed.

(** Descriptors that agree on the keys send the same pattern. *)
Lemma constraint_props_agree (keys : list string) (p1 p2 : dict) :
  (forall c, In c keys ->
     exists v, dict_get c p1 = Some v /\ dict_get c p2 = Some v) ->
  exists cp,
    constraint_props keys p1 = Ok cp /\ constraint_props keys p2 = Ok cp.
Proof.
  induction keys as [|c keys IH]; intros H.
  - now exists [].
  - destruct (H c (or_introl eq_refl)) as (v & H1 & H2).
    destruct IH as (cp & E1 & E2); [intros c' Hc'; apply H; now right|].
    exists ((c, v) :: cp). simpl. unfold dict_item.
    now rewrite H1, H2, E1, E2.
Qed.

(** The literal of every value of a readable dictionary reads back as the
    value. *)
Lemma readable_dict_reads_back (d : dict) (key : string) (v : value) :
  readable_dict d = true -> In (key, v) d ->
  read_literal (literal v) = Some v.
Proof.
  unfold readable_dict. rewrite forallb_forall. intros H Hin.
  specialize (H _ Hin). simpl in H. apply andb_true_iff in H as [_ H].
  now apply literal_reads_back.
Qed.

(** C2, as the code has it, on the reference store and for descriptors
    the statement text carries unchanged: once normalized, their keys are
    identifiers and their values 64-bit integers or strings without a
    backslash, so that every literal [dict2str] writes reads back as the
    value.  Two creating resolves of a label of the registry with a
    unique key whose descriptors agree, once normalized, on every key of
    the label's registry entry, both going to the store and the second
    merge raising no constraint violation: the second call returns the
    identifier of the first, and on that node every property the second
    descriptor supplies now has the second descriptor's normalized value,
    while the properties it does not supply keep the values they had. *)
Theorem constrained_merge_last_write (label k : string)
    (props : list (string * list constraint)) (cs : list constraint)
    (prop1 prop2 p1 p2 : dict) (s s1 s2 : iyp Neo4j.graph) (i : Z)
    (r : res (option Z)) :
  In (label, props) NODE_CONSTRAINTS -> In (k, cs) props -> In UNIQUE cs ->
  graph_ok (tx s) ->
  NoDup (dict_keys prop1) -> NoDup (dict_keys prop2) ->
  format_properties prop1 = Ok p1 -> format_properties prop2 = Ok p2 ->
  readable_dict p1 = true -> readable_dict p2 = true ->
  (forall c, In c (map fst props) ->
     exists v, dict_get c p1 = Some v /\ dict_get c p2 = Some v) ->
  lru_find (key_of (LStr label) prop1 true) (node_cache s) = None ->
  get_node Neo4j.exec (LStr label) prop1 true s = (Ok (Some i), s1) ->
  lru_find (key_of (LStr label) prop2 true) (node_cache s1) = None ->
  get_node Neo4j.exec (LStr label) prop2 true s1 = (r, s2) ->
  stderr s2 = stderr s1 ->
  r = Ok (Some i) /\
  (forall key v, In (key, v) p1 \/ In (key, v) p2 ->
                 read_literal (literal v) = Some v) /\
  exists n1 n2,
    In n1 (Neo4j.nodes (tx s1)) /\ In n2 (Neo4j.nodes (tx s2)) /\
    Neo4j.node_id n1 = i /\ Neo4j.node_id n2 = i /\
    Neo4j.node_props n2 = Neo4j.set_props p2 (Neo4j.node_props n1) /\
    (forall key v, dict_get key p2 = Some v ->
                   dict_get key (Neo4j.node_props n2) = Some v) /\
    (forall key, dict_get key p2 = None ->
                 dict_get key (Neo4j.node_props n2)
                 = dict_get key (Neo4j.node_props n1)).
Proof.
  intros Hreg Hk Hu Hok Hnd1 Hnd2 Hp1 Hp2 Hr1 Hr2 Hagree
         Hmiss1 Hcall1 Hmiss2 Hcall2 Herr.
  destruct (registry_keys label props Hreg) as [Hck _].
  destruct (constraint_props_agree (map fst props) p1 p2 Hagree)
    as (cp & Hcp1 & Hcp2).
  rewrite <- Hck in Hcp1, Hcp2.
  destruct (constrained_merge_on_pattern label k prop1 prop2 p1 p2 cp
              s s1 s2 i r (registry_unique label k props cs Hreg Hk Hu)
              Hok Hnd1 Hnd2 Hp1 Hp2 Hcp1 Hcp2 Hmiss1 Hcall1 Hmiss2 Hcall2
              Herr) as [Hres Hnodes].
  split; [exact Hres|]. split; [|exact Hnodes].
  intros key v [Hin|Hin].
  - exact (readable_dict_reads_back p1 key v Hr1 Hin).
  - exact (readable_dict_reads_back p2 key v Hr2 Hin).
Qed.

Lemma constrained_merge_last_write_witness :
  let s0 := Neo4j.connect Neo4j.empty in
  let a := [("asn", VInt 65000); ("name", VStr "A"); ("note", VStr "x")] in
  let b := [("asn", VStr "65000"); ("name", VStr "B")] in
  let p2 := [("asn", VInt 65000); ("name", VStr "B")] in
  let r1 := get_node Neo4j.exec (LStr "AS") a true s0 in
  let r2 := get_node Neo4j.exec (LStr "AS") b true r1.2 in
  r2.1 = Ok (Some 0) /\
  (forall key v, In (key, v) a \/ In (key, v) p2 ->
                 read_literal (literal v) = Some v) /\
  exists n1 n2,
    In n1 (Neo4j.nodes (tx r1.2)) /\ In n2 (Neo4j.nodes (tx r2.2)) /\
    Neo4j.node_id n1 = 0 /\ Neo4j.node_id n2 = 0 /\
    Neo4j.node_props n2 = Neo4j.set_props p2 (Neo4j.node_props n1) /\
    (forall key v,
       dict_get key p2 = Some v ->
       dict_get key (Neo4j.node_props n2) = Some v) /\
    (forall key,
       dict_get key p2 = None ->
       dict_get key (Neo4j.node_props n2)
       = dict_get key (Neo4j.node_props n1)).
Proof.
  intros s0 a b p2 r1 r2.
  apply (constrained_merge_last_write "AS" "asn"
           [("asn", [UNIQUE; NOT_NULL])] [UNIQUE; NOT_NULL] a b a p2
           s0 r1.2 r2.2 0 r2.1).
  - simpl. tauto.
  - left. reflexivity.
  - left. reflexivity.
  - reflexivity.
  - apply (bool_decide_unpack _). vm_compute. exact I.
  - apply (bool_decide_unpack _). vm_compute. exact I.
  - reflexivity.
  - reflexivity.
  - reflexivity.
  - reflexivity.
  - intros c [<-|[]]. exists (VInt 65000). split; reflexivity.
  - vm_compute. reflexivity.
  - vm_compute. reflexivity.
  - vm_compute. reflexivity.
  - vm_compute. reflexivity.
  - vm_compute. reflexivity.
Defined.
